(** * Harmonic mesh extension: the deformation scripts of meshmux

    A shallow embedding of [tutorials/0_fundamental_deformation/0_fundamentals.py]
    and of the call sites in
    [tutorials/1_harmonic_mesh_deformation/harmonic_mesh_motion.py].

    The script snapshots the node coordinates of a mesh, builds one Dirichlet
    condition per boundary marker, solves Laplace's equation, adds the solved
    field to the node coordinates in place and finally writes the snapshot
    back.  Scalars are kept abstract: the structural results hold for any
    carrier and any addition, the algebraic ones for any commutative ring. *)

From Stdlib Require Import ZArith List Lia Ring.
From Stdlib Require Import QArith Qcanon.
From stdpp Require Import base tactics option list sorting.

(** ** Python exceptions and the state-and-exception monad *)

Inductive exn : Type :=
  | IndexError      (* list index out of range *)
  | ValueError      (* numpy: reshape or broadcast of incompatible shapes *)
  | RuntimeError    (* dolfinx: interpolation of a function of the wrong shape *)
  | SolveError      (* PETSc: the linear solve did not produce a solution *)
  | IOError.        (* XDMF output failed *)

Inductive result (A : Type) : Type :=
  | Ok (a : A)
  | Raise (e : exn).
Arguments Ok {A} a.
Arguments Raise {A} e.

(** A computation reads and writes a store [S]; a raised exception keeps the
    store as it was when the exception left the statement, as in Python. *)
Definition M (S A : Type) : Type := S -> result A * S.

Definition ret {S A} (a : A) : M S A := fun s => (Ok a, s).
Definition raise {S A} (e : exn) : M S A := fun s => (Raise e, s).
Definition bind {S A B} (m : M S A) (k : A -> M S B) : M S B :=
  fun s => match m s with
           | (Ok a, s') => k a s'
           | (Raise e, s') => (Raise e, s')
           end.
Definition lift_result {S A} (r : result A) : M S A := fun s => (r, s).

Notation "'let*' x ':=' m 'in' k" := (bind m (fun x => k))
  (at level 10, x pattern, m at level 100, k at level 200).
Notation "m ';;' k" := (bind m (fun _ => k))
  (at level 100, k at level 200, right associativity).

(** ** numpy arrays *)

Section Arrays.
Context {R : Type}.

(** A two-dimensional array: its shape and its entries in row-major order. *)
Record ndarray : Type := NdArray {
  nd_rows : nat;
  nd_cols : nat;
  nd_data : list R
}.

Definition wf_array (a : ndarray) : Prop :=
  length (nd_data a) = nd_rows a * nd_cols a.

(** [a[i, j]] *)
Definition nd_get (a : ndarray) (i j : nat) : option R :=
  if decide (i < nd_rows a ∧ j < nd_cols a)
  then nd_data a !! (i * nd_cols a + j) else None.

(** [a[i, :]], the point stored in row [i] *)
Definition nd_row (a : ndarray) (i : nat) : list R :=
  take (nd_cols a) (drop (i * nd_cols a) (nd_data a)).

(** [v.reshape(r, c)] of a flat array [v] *)
Definition reshape (v : list R) (r c : nat) : result ndarray :=
  if decide (length v = r * c) then Ok (NdArray r c v) else Raise ValueError.

(** The entry of [u] that numpy's broadcasting pairs with position [(i, j)]. *)
Definition broadcast_get (u : ndarray) (i j : nat) : option R :=
  nd_get u (if decide (nd_rows u = 1) then 0 else i)
           (if decide (nd_cols u = 1) then 0 else j).

Definition broadcastable (u : ndarray) (r c : nat) : Prop :=
  (nd_rows u = r ∨ nd_rows u = 1) ∧ (nd_cols u = c ∨ nd_cols u = 1).

Global Instance broadcastable_dec u r c : Decision (broadcastable u r c).
Proof. unfold broadcastable. apply _. Defined.

(** An in-place operation on the view [a[:, :c]] with operand [u]: the view
    has [min c (nd_cols a)] columns; [u] must broadcast to the shape of the
    view, and nothing is written otherwise.  Entry [v] of the view becomes
    [op v d] for the entry [d] of [u] that broadcasts to it. *)
Definition update_cols (op : R -> R -> R) (a : ndarray) (c : nat) (u : ndarray)
  : result ndarray :=
  let c' := c `min` nd_cols a in
  if decide (broadcastable u (nd_rows a) c') then
    Ok (NdArray (nd_rows a) (nd_cols a)
          (imap (fun k v =>
                   let i := k / nd_cols a in
                   let j := k mod nd_cols a in
                   if decide (j < c')
                   then match broadcast_get u i j with
                        | Some d => op v d
                        | None => v
                        end
                   else v)
                (nd_data a)))
  else Raise ValueError.

(** [a[:, :c] += u] *)
Definition iadd_cols (add : R -> R -> R) : ndarray -> nat -> ndarray -> result ndarray :=
  update_cols add.

(** [a[:, :c] = u] *)
Definition assign_cols : ndarray -> nat -> ndarray -> result ndarray :=
  update_cols (fun _ d => d).

(** [a[:] = b] *)
Definition assign_all (a b : ndarray) : result ndarray :=
  assign_cols a (nd_cols a) b.

End Arrays.
Arguments ndarray R : clear implicits.

(** ** Scalars and the external collaborators *)

(** The operations of the scalar type ([numpy.float64] in the scripts). *)
Class Scalar (R : Type) : Type := {
  zero : R;
  one : R;
  add : R -> R -> R;
  mul : R -> R -> R;
  sub : R -> R -> R;
  opp : R -> R
}.

(** The arrays live in a store; a variable holds the location of its array, so
    that two names of one array see each other's writes and a [copy] does not. *)
Definition loc : Type := nat.
Abbreviation heap R := (list (ndarray R)).

Record Mesh : Type := {
  geometry_x : loc;                     (* mesh.geometry.x *)
  geometry_dim : nat;                   (* mesh.geometry.dim *)
  topology_cells : list (list nat);     (* cell -> its nodes *)
  topology_facets : list (list nat)     (* facet -> the nodes on its closure *)
}.

Record MeshTags : Type := {
  indices : list nat;                   (* tagged entities *)
  values : list Z                       (* their markers, position by position *)
}.

(** What the script asks of dolfinx, PETSc and the file system: the entries
    [a(phi_j, phi_i)] of the bilinear form [inner(grad(u), grad(v))*dx] on the
    mesh with the given node coordinates, the linear solve, and whether the
    XDMF output succeeds. *)
Class Backend (R : Type) : Type := {
  a_form : Mesh -> ndarray R -> nat -> nat -> R;
  ksp_solve : list (list R) -> list R -> result (list R);
  xdmf_ok : bool
}.

Section Script.
Context {R : Type} `{Scalar R} `{Backend R}.

(** *** Store operations *)

Definition read (l : loc) : M (heap R) (ndarray R) :=
  fun h => match h !! l with
           | Some a => (Ok a, h)
           | None => (Raise RuntimeError, h)
           end.

(** [a.copy()]: a fresh array with the entries of [a]. *)
Definition np_copy (l : loc) : M (heap R) loc :=
  fun h => match h !! l with
           | Some a => (Ok (length h), h ++ [a])
           | None => (Raise RuntimeError, h)
           end.

(** An in-place operation on the array at [l]. *)
Definition update (l : loc) (f : ndarray R -> result (ndarray R)) : M (heap R) unit :=
  fun h => match h !! l with
           | Some a => match f a with
                       | Ok a' => (Ok tt, <[l:=a']> h)
                       | Raise e => (Raise e, h)
                       end
           | None => (Raise RuntimeError, h)
           end.

(** [l[i]] for [i] taken from a [range]. *)
Definition py_index {S A} (l : list A) (i : nat) : M S A :=
  match l !! i with
  | Some v => ret v
  | None => raise IndexError
  end.

(** *** Boundary conditions *)

(** [boundaries.find(marker)] *)
Definition find (t : MeshTags) (v : Z) : list nat :=
  omap (fun '(e, w) => if decide (w = v) then Some e else None)
       (zip (indices t) (values t)).

(** [locate_dofs_topological(V, gdim-1, facets)]: the blocks (nodes) on the
    closure of the given facets, sorted and without repetition. *)
Definition locate_dofs_topological (mesh : Mesh) (facets : list nat) : list nat :=
  merge_sort le
    (remove_dups (facets ≫= fun f => default [] (topology_facets mesh !! f))).

(** A function of the space [V] is its array of [rows * bs] values. *)
Definition interpolate (f : list R -> list R) (x : ndarray R) (bs : nat)
  : result (list R) :=
  let vals := map (fun i => f (nd_row x i)) (seq 0 (nd_rows x)) in
  if decide (Forall (fun v => length v = bs) vals)
  then Ok (concat vals) else Raise RuntimeError.

Record DirichletBC : Type := {
  bc_g : list R;          (* the values of the interpolated function *)
  bc_dofs : list nat;     (* the constrained blocks *)
  bc_bs : nat             (* the block size of [V] *)
}.

(** The loop [for i in range(len(bc_markers))] of the script, from index
    [i :: rest] of the range on. *)
Fixpoint bc_loop (mesh : Mesh) (boundaries : MeshTags) (bc_markers : list Z)
    (bc_function_list : list (list R -> list R)) (range : list nat)
    (bc_list : list DirichletBC) : M (heap R) (list DirichletBC) :=
  match range with
  | [] => ret bc_list
  | i :: rest =>
      let* marker := py_index bc_markers i in
      let dofs := find boundaries marker in
      let bc_dofs := locate_dofs_topological mesh dofs in
      let* f := py_index bc_function_list i in
      let* x := read (geometry_x mesh) in
      let* g := lift_result (interpolate f x (geometry_dim mesh)) in
      bc_loop mesh boundaries bc_markers bc_function_list rest
        (bc_list ++ [{| bc_g := g; bc_dofs := bc_dofs; bc_bs := geometry_dim mesh |}])
  end.

(** *** The constrained linear system *)

(** The scalar degrees of freedom of the blocks of a condition. *)
Definition unrolled (bc : DirichletBC) : list nat :=
  bc_dofs bc ≫= fun n => map (fun c => n * bc_bs bc + c) (seq 0 (bc_bs bc)).

Definition mark_dofs (markers : list bool) (bc : DirichletBC) : list bool :=
  foldl (fun ms d => <[d:=true]> ms) markers (unrolled bc).

(** [bc.set(b)]: [b[d] = g[d]] at every constrained degree of freedom. *)
Definition dof_values (b : list R) (bc : DirichletBC) : list R :=
  foldl (fun vs d => match bc_g bc !! d with
                     | Some v => <[d:=v]> vs
                     | None => vs
                     end) b (unrolled bc).

(** The marker and value arrays that assembly builds from the conditions, one
    condition after the other. *)
Definition bc_markers_of (N : nat) (bcs : list DirichletBC) : list bool :=
  foldl mark_dofs (replicate N false) bcs.
Definition bc_values_of (N : nat) (bcs : list DirichletBC) : list R :=
  foldl dof_values (replicate N zero) bcs.

Definition is_marked (ms : list bool) (i : nat) : bool := default false (ms !! i).
Definition value_at (vs : list R) (i : nat) : R := default zero (vs !! i).

Definition sum_list (l : list R) : R := foldr add zero l.
Definition dot (r x : list R) : R := sum_list (zip_with mul r x).
Definition matvec (A : list (list R)) (x : list R) : list R :=
  map (fun r => dot r x) A.

(** [assemble_matrix(a_form, bcs=bc_list)]: rows and columns of constrained
    degrees of freedom are zeroed and their diagonal entry is one. *)
Definition assemble_matrix (a : nat -> nat -> R) (N : nat)
    (bcs : list DirichletBC) : list (list R) :=
  let ms := bc_markers_of N bcs in
  map (fun i =>
         map (fun j =>
                if is_marked ms i || is_marked ms j
                then (if decide (i = j) then one else zero)
                else a i j)
             (seq 0 N))
      (seq 0 N).

(** [assemble_vector(l_form)]: the source term of [l_form] is the constant
    zero vector. *)
Definition assemble_vector (N : nat) : list R := replicate N zero.

(** [apply_lifting(F, [a_form], [bc_list])]: [F -= A g] over the constrained
    columns. *)
Definition apply_lifting (F : list R) (a : nat -> nat -> R) (N : nat)
    (bcs : list DirichletBC) : list R :=
  let ms := bc_markers_of N bcs in
  let vs := bc_values_of N bcs in
  imap (fun i b =>
          sub b (sum_list (map (fun j => if is_marked ms j
                                         then mul (a i j) (value_at vs j)
                                         else zero)
                               (seq 0 N))))
       F.

(** [set_bc(F, bc_list)] *)
Definition set_bc (F : list R) (bcs : list DirichletBC) : list R :=
  foldl dof_values F bcs.

(** Lines 88 to 109: assemble, lift, constrain and solve; [uh.x.array] has
    one entry per degree of freedom of [V]. *)
Definition solve_laplace (mesh : Mesh) (bc_list : list DirichletBC)
  : M (heap R) (list R) :=
  let* x := read (geometry_x mesh) in
  let N := nd_rows x * geometry_dim mesh in
  let a := a_form mesh x in
  let A := assemble_matrix a N bc_list in
  let F := assemble_vector N in
  let F := apply_lifting F a N bc_list in
  let F := set_bc F bc_list in
  let* uh := lift_result (ksp_solve A F) in
  if decide (length uh = N) then ret uh else raise SolveError.

(** *** The script *)

Definition gdim : nat := 2.

(** Lines 41 to 114: snapshot, boundary conditions, solve, and the in-place
    update [mesh.geometry.x[:, :mesh.geometry.dim] += uh.reshape(n, gdim)]. *)
Definition deform (mesh : Mesh) (boundaries : MeshTags) (bc_markers : list Z)
    (bc_function_list : list (list R -> list R)) : M (heap R) (loc * list R) :=
  let* reference_coordinates := np_copy (geometry_x mesh) in
  let* bc_list := bc_loop mesh boundaries bc_markers bc_function_list
                    (seq 0 (length bc_markers)) [] in
  let* uh := solve_laplace mesh bc_list in
  let* ref := read reference_coordinates in
  let* u := lift_result (reshape uh (nd_rows ref) gdim) in
  update (geometry_x mesh) (fun x => iadd_cols add x (geometry_dim mesh) u) ;;
  ret (reference_coordinates, uh).

(** Lines 117 to 122: the deformed mesh is written to a file. *)
Definition write_mesh : M (heap R) unit :=
  if xdmf_ok then ret tt else raise IOError.

(** Line 126: [mesh.geometry.x[:] = reference_coordinates]. *)
Definition restore (mesh : Mesh) (reference_coordinates : loc) : M (heap R) unit :=
  let* ref := read reference_coordinates in
  update (geometry_x mesh) (fun x => assign_all x ref).

Definition script (mesh : Mesh) (boundaries : MeshTags) (bc_markers : list Z)
    (bc_function_list : list (list R -> list R)) : M (heap R) unit :=
  let* entered := deform mesh boundaries bc_markers bc_function_list in
  let reference_coordinates := fst entered in
  write_mesh ;;
  restore mesh reference_coordinates.

End Script.
Arguments DirichletBC R : clear implicits.

(** ** The mesh-motion context of the second tutorial *)

Module HarmonicMeshMotion.
Section MeshMotion.
Context {R : Type} `{Scalar R} `{Backend R}.

(** The arguments of [HarmonicMeshMotion(mesh, boundary_tags, marker_list,
    displacement_function_list, reset_reference, is_deformation)]. *)
Record t : Type := {
  mesh : Mesh;
  boundary_tags : MeshTags;
  marker_list : list Z;
  displacement_function_list : list (list R -> list R);
  reset_reference : bool;
  is_deformation : bool
}.

(** Modelled from the spec: method [__enter__] of class [HarmonicMeshMotion]
    of [meshmux.mesh_motion_classes], which the tutorial imports and whose
    source is not among the files.  Steps 1 to 4 of the entry (snapshot,
    constraints, solve, nodal solution) are the statements of the first
    tutorial; step 5 adds [uh] to the coordinates when [is_deformation] is
    true and sets the coordinates to [uh] when it is false. *)
Definition enter (c : t) : M (heap R) (loc * list R) :=
  let* reference_coordinates := np_copy (geometry_x (mesh c)) in
  let* bc_list := bc_loop (mesh c) (boundary_tags c) (marker_list c)
                    (displacement_function_list c)
                    (seq 0 (length (marker_list c))) [] in
  let* uh := solve_laplace (mesh c) bc_list in
  let* ref := read reference_coordinates in
  let* u := lift_result (reshape uh (nd_rows ref) gdim) in
  update (geometry_x (mesh c))
    (fun x => if is_deformation c
              then iadd_cols add x (geometry_dim (mesh c)) u
              else assign_cols x (geometry_dim (mesh c)) u) ;;
  ret (reference_coordinates, uh).

(** Modelled from the spec: method [__exit__] of the same class: the snapshot
    is written back when [reset_reference] is true, and the deformed
    coordinates stay otherwise. *)
Definition exit (c : t) (reference_coordinates : loc) : M (heap R) unit :=
  if reset_reference c then restore (mesh c) reference_coordinates else ret tt.

(** Python's [with c: body]: [__exit__] runs when the body completes and
    when it raises; an exception of [__enter__] leaves before the body and
    without [__exit__]. *)
Definition with_context {A} (c : t) (body : M (heap R) A) : M (heap R) A :=
  let* entered := enter c in
  fun h => match body h with
           | (r, h') => match exit c (fst entered) h' with
                        | (Ok _, h'') => (r, h'')
                        | (Raise e, h'') => (Raise e, h'')
                        end
           end.

End MeshMotion.
Arguments t R : clear implicits.
End HarmonicMeshMotion.

(** ** Concrete scalars and collaborators *)

#[export] Instance Z_scalar : Scalar Z :=
  {| zero := 0%Z; one := 1%Z; add := Z.add; mul := Z.mul; sub := Z.sub; opp := Z.opp |}.

#[export] Instance Qc_scalar : Scalar Qc :=
  {| zero := 0%Qc; one := 1%Qc; add := Qcplus; mul := Qcmult;
     sub := Qcminus; opp := Qcopp |}.

#[export] Instance Qc_eq_decision : EqDecision Qc := Qc_eq_dec.

(** A direct solver given as its table of solutions: it answers with the
    first entry that satisfies the system, and fails when none does. *)
Definition table_solve {R : Type} `{Scalar R} `{EqDecision R}
    (table : list (list R)) (A : list (list R)) (F : list R) : result (list R) :=
  match head (filter (fun x => matvec A x = F) table) with
  | Some x => Ok x
  | None => Raise SolveError
  end.

Section P1.
Local Open Scope Qc_scope.

Definition Qc_abs (q : Qc) : Qc := if Qclt_le_dec q 0 then - q else q.

Definition coord (x : ndarray Qc) (n j : nat) : Qc := default 0 (nd_get x n j).

(** The element matrix of [inner(grad(u), grad(v))*dx] on a straight triangle
    with degree-1 Lagrange functions:
    [(b_k b_l + c_k c_l) / (4 area)], with [b], [c] the coordinate differences
    of the opposite edge. *)
Definition p1_local (x : ndarray Qc) (cell : list nat) (k l : nat) : Qc :=
  let X i := coord x (nth i cell 0%nat) 0 in
  let Y i := coord x (nth i cell 0%nat) 1 in
  let b i := Y ((i + 1) mod 3)%nat - Y ((i + 2) mod 3)%nat in
  let c i := X ((i + 2) mod 3)%nat - X ((i + 1) mod 3)%nat in
  let det := (X 1%nat - X 0%nat) * (Y 2%nat - Y 0%nat)
             - (X 2%nat - X 0%nat) * (Y 1%nat - Y 0%nat) in
  (b k * b l + c k * c l) / ((1 + 1) * Qc_abs det).

(** The scalar stiffness entry of nodes [p] and [q], summed over the cells. *)
Definition p1_scalar (cells : list (list nat)) (x : ndarray Qc) (p q : nat) : Qc :=
  foldr Qcplus 0
    (cell ← cells;
     k ← seq 0 3;
     l ← seq 0 3;
     if decide (cell !! k = Some p ∧ cell !! l = Some q)
     then [p1_local x cell k l] else []).

(** The form on the vector space: the components do not couple. *)
Definition p1_form (mesh : Mesh) (x : ndarray Qc) (i j : nat) : Qc :=
  let bs := geometry_dim mesh in
  if decide (bs ≠ 0%nat ∧ i mod bs = j mod bs)
  then p1_scalar (topology_cells mesh) x (i / bs) (j / bs) else 0.

End P1.

(** ** Notions used in the statements *)

(** A computation that only reads the store. *)
Definition read_only {S A} (m : M S A) : Prop := forall s, snd (m s) = s.

Section Notions.
Context {R : Type} `{Scalar R} `{Backend R}.

(** The operand of the coordinate update: [uh.x.array.reshape(n, gdim)]. *)
Definition displacement (a : ndarray R) (uh : list R) : ndarray R :=
  NdArray (nd_rows a) gdim uh.

(** The value that a condition imposes on a degree of freedom, if any. *)
Definition imposed (bc : DirichletBC R) (d : nat) : option R :=
  if decide (d ∈ unrolled bc) then bc_g bc !! d else None.

(** The values imposed on a degree of freedom, in the order of the list of
    conditions. *)
Definition covering (bcs : list (DirichletBC R)) (d : nat) : list R :=
  omap (fun bc => imposed bc d) bcs.

(** A degree of freedom is constrained when a condition lists it. *)
Definition constrained (bcs : list (DirichletBC R)) (d : nat) : Prop :=
  Exists (fun bc => d ∈ unrolled bc) bcs.

(** Node [n] lies on a facet tagged with marker [m]. *)
Definition on_marker (mesh : Mesh) (boundaries : MeshTags) (m : Z) (n : nat) : Prop :=
  exists p e nodes,
    indices boundaries !! p = Some e /\ values boundaries !! p = Some m /\
    topology_facets mesh !! e = Some nodes /\ n ∈ nodes.

(** The discrete Laplacian of a field at degree of freedom [i]: the residual
    [a(uh, phi_i)] of the form on the mesh with coordinates [x]. *)
Definition laplacian (mesh : Mesh) (x : ndarray R) (uh : list R) (i : nat) : R :=
  sum_list (map (fun j => mul (a_form mesh x i j) (value_at uh j))
                (seq 0 (nd_rows x * geometry_dim mesh))).

(** The condition that the pairing loop builds for the pair [(m, f)] on the
    mesh with coordinates [x]. *)
Definition bc_of (mesh : Mesh) (boundaries : MeshTags) (x : ndarray R) (m : Z)
    (f : list R -> list R) : DirichletBC R :=
  {| bc_g := concat (map (fun i => f (nd_row x i)) (seq 0 (nd_rows x)));
     bc_dofs := locate_dofs_topological mesh (find boundaries m);
     bc_bs := geometry_dim mesh |}.

(** A function is well shaped when it returns [dim] values at every node. *)
Definition shaped (mesh : Mesh) (x : ndarray R) (f : list R -> list R) : Prop :=
  Forall (fun v => length v = geometry_dim mesh)
         (map (fun i => f (nd_row x i)) (seq 0 (nd_rows x))).

(** The point reached from [p] by the displacement [d]. *)
Definition displace (p d : list R) : list R :=
  imap (fun j v => match d !! j with Some u => add v u | None => v end) p.

(** The displacement that first applies [fA] and then [fB] at the displaced
    point: the composition of the two effective displacements
    [p -> p + fA p] and [q -> q + fB q], less the starting point. *)
Definition compose (fA fB : list R -> list R) (p : list R) : list R :=
  zip_with add (fA p) (fB (displace p (fA p))).

(** The context on a mesh and a list of markers that adds its solved field
    to the coordinates and keeps the deformation on exit. *)
Definition keeping (mesh : Mesh) (boundaries : MeshTags) (ms : list Z)
    (fs : list (list R -> list R)) : HarmonicMeshMotion.t R :=
  {| HarmonicMeshMotion.mesh := mesh;
     HarmonicMeshMotion.boundary_tags := boundaries;
     HarmonicMeshMotion.marker_list := ms;
     HarmonicMeshMotion.displacement_function_list := fs;
     HarmonicMeshMotion.reset_reference := false;
     HarmonicMeshMotion.is_deformation := true |}.

(** The linear solver returns solutions of the system it is given. *)
Definition sound_solver : Prop :=
  forall A F x, ksp_solve A F = Ok x -> matvec A x = F.

End Notions.

(** ** A small mesh for the examples

    The square with corners (0,0), (2,0), (2,2), (0,2), cut into four
    triangles at its centre (1,1); its four sides carry the markers 1 to 4.
    On this mesh the stiffness matrix of the Laplace form has integer
    entries. *)

Definition square_mesh : Mesh :=
  {| geometry_x := 0;
     geometry_dim := 2;
     topology_cells := [[0; 1; 4]; [1; 2; 4]; [2; 3; 4]; [3; 0; 4]];
     topology_facets := [[0; 1]; [1; 2]; [2; 3]; [3; 0]] |}.

Definition square_tags : MeshTags :=
  {| indices := [0; 1; 2; 3]; values := [1; 2; 3; 4]%Z |}.

Definition square_x : ndarray Z :=
  NdArray 5 3 [0; 0; 0;  2; 0; 0;  2; 2; 0;  0; 2; 0;  1; 1; 0]%Z.

Definition square_heap : heap Z := [square_x].

Definition square_stiffness : list (list Z) :=
  [[ 1;  0;  0;  0; -1];
   [ 0;  1;  0;  0; -1];
   [ 0;  0;  1;  0; -1];
   [ 0;  0;  0;  1; -1];
   [-1; -1; -1; -1;  4]]%Z.

Definition square_form (_ : Mesh) (_ : ndarray Z) (i j : nat) : Z :=
  if decide (i mod 2 = j mod 2)
  then nth (j / 2) (nth (i / 2) square_stiffness []) 0%Z else 0%Z.

Definition square_backend (table : list (list Z)) (io : bool) : Backend Z :=
  {| a_form := square_form; ksp_solve := table_solve table; xdmf_ok := io |}.

(** Displacement functions on the integer mesh. *)
Definition lift_corner (p : list Z) : list Z :=
  [0; nth 0 p 0 * nth 1 p 0]%Z.
Definition shift_up (p : list Z) : list Z := [0; 3]%Z.
Definition shift_right (p : list Z) : list Z := [6; 0]%Z.

(** The same lift given as target coordinates. *)
Definition lift_corner_target (p : list Z) : list Z :=
  [nth 0 p 0; nth 1 p 0 + nth 0 p 0 * nth 1 p 0]%Z.

Definition all_sides : list Z := [1; 2; 3; 4]%Z.

(** The solved fields of the examples. *)
Definition lift_corner_uh : list Z := [0; 0;  0; 0;  0; 4;  0; 0;  0; 1]%Z.
Definition shift_up_uh : list Z := [0; 3;  0; 3;  0; 3;  0; 3;  0; 3]%Z.
Definition lift_corner_target_uh : list Z := [0; 0;  2; 0;  2; 6;  0; 2;  1; 2]%Z.
Definition lift_then_shift_uh : list Z := [0; 3;  0; 3;  0; 7;  0; 3;  0; 4]%Z.
Definition shared_corner_uh : list Z := [0; 3;  6; 0;  6; 0;  4; 1;  4; 1]%Z.

(** The same square with side 1 over the rationals, and the square after its
    corner (1,1) has been moved to (2,2). *)
Definition qc (n : Z) (d : positive) : Qc := Q2Qc (n # d).

Definition unit_square_x : ndarray Qc :=
  NdArray 5 3 [qc 0 1; qc 0 1; qc 0 1;  qc 1 1; qc 0 1; qc 0 1;
               qc 1 1; qc 1 1; qc 0 1;  qc 0 1; qc 1 1; qc 0 1;
               qc 1 2; qc 1 2; qc 0 1].

Definition p1_backend (table : list (list Qc)) : Backend Qc :=
  {| a_form := p1_form; ksp_solve := table_solve table; xdmf_ok := true |}.

(** Two displacements of the unit square: the first pulls the corner (1,1)
    to (2,2), the second pushes the corner that then sits at (1,0) up by 1. *)
Definition corner_pull (p : list Qc) : list Qc :=
  let x := nth 0 p 0%Qc in let y := nth 1 p 0%Qc in
  [x * y; x * y]%Qc.
Definition bottom_push (p : list Qc) : list Qc :=
  let x := nth 0 p 0%Qc in let y := nth 1 p 0%Qc in
  [0; x * (1 + 1 - x) * (1 - y)]%Qc.

Definition corner_pull_uh : list Qc :=
  [qc 0 1; qc 0 1;  qc 0 1; qc 0 1;  qc 1 1; qc 1 1;  qc 0 1; qc 0 1;  qc 1 4; qc 1 4].
Definition bottom_push_uh : list Qc :=
  [qc 0 1; qc 0 1;  qc 0 1; qc 1 1;  qc 0 1; qc 0 1;  qc 0 1; qc 0 1;  qc 0 1; qc 3 8].
Definition composed_uh : list Qc :=
  [qc 0 1; qc 0 1;  qc 0 1; qc 1 1;  qc 1 1; qc 1 1;  qc 0 1; qc 0 1;  qc 1 4; qc 1 2].

Definition unit_square_backend : Backend Qc :=
  p1_backend [corner_pull_uh; bottom_push_uh; composed_uh].

(** A context on the unit square that keeps its deformation. *)
Definition keep_context (fs : list (list Qc -> list Qc)) : HarmonicMeshMotion.t Qc :=
  keeping square_mesh square_tags all_sides fs.

(** Context A, then context B on the mesh that A leaves. *)
Definition run_sequential : result unit * heap Qc :=
  (HarmonicMeshMotion.with_context (H0 := unit_square_backend)
     (keep_context [corner_pull; corner_pull; corner_pull; corner_pull]) (ret tt) ;;
   HarmonicMeshMotion.with_context (H0 := unit_square_backend)
     (keep_context [bottom_push; bottom_push; bottom_push; bottom_push]) (ret tt))
    [unit_square_x].

(** The single context with the composed functions. *)
Definition run_composed : result unit * heap Qc :=
  HarmonicMeshMotion.with_context (H0 := unit_square_backend)
    (keep_context [compose corner_pull bottom_push; compose corner_pull bottom_push;
                   compose corner_pull bottom_push; compose corner_pull bottom_push])
    (ret tt) [unit_square_x].

(** Coordinate [j] of node [n] of the mesh in a final store. *)
Definition final_coordinate (run : result unit * heap Qc) (n j : nat) : option Q :=
  a ← snd run !! geometry_x square_mesh; v ← nd_get a n j; Some (Qred (this v)).

(** ** The boundary functions and lists of the tutorials *)

(** What the boundary functions take from numpy: the sine, [np.pi] and the
    literals [2], [0.2] and [0.1]. *)
Class Numpy (R : Type) : Type := {
  np_sin : R -> R;
  np_pi : R;
  lit_2 : R;
  lit_0_2 : R;
  lit_0_1 : R
}.

Section Tutorial.
Context {R : Type} `{Scalar R} `{Numpy R}.

(** Lines 53 to 64 of the first tutorial (and 37 to 48 of the second):
    [x[0]] and [x[1]] are the first two coordinates of the point. *)
Definition bc_bottom (x : list R) : list R :=
  [mul zero (value_at x 0);
   mul lit_0_2 (np_sin (mul (mul (value_at x 0) lit_2) np_pi))].

Definition bc_top (x : list R) : list R :=
  [mul zero (value_at x 0);
   mul lit_0_1 (np_sin (mul (mul (value_at x 0) lit_2) np_pi))].

Definition bc_side (x : list R) : list R :=
  [mul zero (value_at x 0); mul zero (value_at x 1)].

(** Lines 69 to 71. *)
Definition bc_markers : list Z := [1; 5; 9; 12; 4; 6; 10; 11]%Z.
Definition bc_function_list : list (list R -> list R) :=
  [bc_bottom; bc_bottom; bc_top; bc_top; bc_side; bc_side; bc_side; bc_side].

End Tutorial.

(** Lines 106 to 117 of the second tutorial, where the same names stand for
    the functions that give the new coordinates of a boundary point. *)
Module NewCoordinates.
Section Targets.
Context {R : Type} `{Scalar R} `{Numpy R}.

Definition bc_bottom (x : list R) : list R :=
  [value_at x 0;
   add (value_at x 1) (mul lit_0_2 (np_sin (mul (mul (value_at x 0) lit_2) np_pi)))].

Definition bc_top (x : list R) : list R :=
  [value_at x 0;
   add (value_at x 1) (mul lit_0_1 (np_sin (mul (mul (value_at x 0) lit_2) np_pi)))].

Definition bc_side (x : list R) : list R :=
  [value_at x 0; value_at x 1].

End Targets.
End NewCoordinates.

(** Stand-ins for numpy on the integers of the examples. *)
#[export] Instance Z_numpy : Numpy Z :=
  {| np_sin := fun x => x; np_pi := 1%Z; lit_2 := 2%Z; lit_0_2 := 2%Z; lit_0_1 := 1%Z |}.

(** The sides of the square tagged as in the tutorials' mesh: bottom 1,
    right 6, top 9, left 4; and the square with only bottom and top among
    the listed markers. *)
Definition tutorial_tags : MeshTags :=
  {| indices := [0; 1; 2; 3]; values := [1; 6; 9; 4]%Z |}.
Definition open_sides_tags : MeshTags :=
  {| indices := [0; 1; 2; 3]; values := [1; 2; 9; 3]%Z |}.

Definition fixed_corners_uh : list Z := [0; 0;  0; 0;  0; 0;  0; 0;  0; 0]%Z.
Definition open_sides_uh : list Z := [0; 0;  0; 8;  0; 4;  0; 0;  0; 3]%Z.

(** The square declared with geometric dimension 3. *)
Definition square_mesh_3d : Mesh :=
  {| geometry_x := 0;
     geometry_dim := 3;
     topology_cells := topology_cells square_mesh;
     topology_facets := topology_facets square_mesh |}.

(** The sum of two boundary functions, component by component. *)
Definition sum_function {R : Type} `{Scalar R} (f g : list R -> list R)
    (p : list R) : list R :=
  zip_with add (f p) (g p).

(** The field of the square whose bottom side is shifted right and whose top
    side is lifted at the corner, the other two sides being free. *)
Definition two_sides_uh : list Z := [6; 0;  6; 0;  0; 4;  0; 0;  3; 1]%Z.

(** * Properties *)

(** ** The monad *)

Lemma bind_Ok {S A B} (m : M S A) (k : A -> M S B) s b s' :
  bind m k s = (Ok b, s') ->
  exists a s1, m s = (Ok a, s1) /\ k a s1 = (Ok b, s').
Proof.
  unfold bind. destruct (m s) as [[a|e] s1]; intros E.
  - eauto.
  - discriminate.
Qed.

Lemma bind_Raise {S A B} (m : M S A) (k : A -> M S B) s e s' :
  bind m k s = (Raise e, s') ->
  m s = (Raise e, s') \/ exists a s1, m s = (Ok a, s1) /\ k a s1 = (Raise e, s').
Proof.
  unfold bind. destruct (m s) as [[a|e0] s1]; intros E.
  - right. eauto.
  - left. injection E as -> ->. reflexivity.
Qed.

Lemma bind_run {S A B} (m : M S A) (k : A -> M S B) s a s1 :
  m s = (Ok a, s1) -> bind m k s = k a s1.
Proof. unfold bind. intros ->. reflexivity. Qed.

Lemma bind_ext_r {S A B} (m : M S A) (k k' : A -> M S B) s :
  (forall a s1, k a s1 = k' a s1) -> bind m k s = bind m k' s.
Proof. intros Hk. unfold bind. destruct (m s) as [[a|e] s1]; auto. Qed.

Lemma bind_ext_l {S A B} (m m' : M S A) (k : A -> M S B) s :
  m s = m' s -> bind m k s = bind m' k s.
Proof. intros Hm. unfold bind. rewrite Hm. reflexivity. Qed.

Lemma read_only_ret {S A} (a : A) : read_only (@ret S A a).
Proof. intros s. reflexivity. Qed.

Lemma read_only_raise {S A} e : read_only (@raise S A e).
Proof. intros s. reflexivity. Qed.

Lemma read_only_lift {S A} (r : result A) : read_only (@lift_result S A r).
Proof. intros s. reflexivity. Qed.

Lemma read_only_bind {S A B} (m : M S A) (k : A -> M S B) :
  read_only m -> (forall a, read_only (k a)) -> read_only (bind m k).
Proof.
  intros Hm Hk s. unfold bind. specialize (Hm s).
  destruct (m s) as [[a|e] s1]; simpl in *; subst.
  - apply Hk.
  - reflexivity.
Qed.

Lemma read_only_py_index {S A} (l : list A) i : read_only (@py_index S A l i).
Proof.
  unfold py_index. destruct (l !! i); [apply read_only_ret | apply read_only_raise].
Qed.

Lemma read_only_run {S A} (m : M S A) s r s' :
  read_only m -> m s = (r, s') -> s' = s.
Proof. intros Hm E. specialize (Hm s). rewrite E in Hm. exact Hm. Qed.

(** ** Arrays *)

Section ArrayFacts.
Context {R : Type}.
Implicit Types (a b u : ndarray R) (op : R -> R -> R).

Lemma flat_index_div (i j c : nat) : j < c -> (i * c + j) / c = i.
Proof.
  intros Hj. rewrite Nat.add_comm, Nat.div_add by lia.
  rewrite Nat.div_small by lia. reflexivity.
Qed.

Lemma flat_index_mod (i j c : nat) : j < c -> (i * c + j) mod c = j.
Proof.
  intros Hj. rewrite Nat.add_comm, Nat.Div0.mod_add.
  apply Nat.mod_small. exact Hj.
Qed.

Lemma flat_index_split (k c : nat) : k / c * c + k mod c = k.
Proof.
  destruct c as [|c].
  - simpl. lia.
  - pose proof (Nat.div_mod_eq k (S c)). lia.
Qed.

Lemma flat_index_row (k r c : nat) : k < r * c -> k / c < r.
Proof.
  intros Hk. destruct c as [|c]; [lia|].
  apply Nat.Div0.div_lt_upper_bound. lia.
Qed.

Lemma update_cols_shape op a c u a' :
  update_cols op a c u = Ok a' ->
  nd_rows a' = nd_rows a /\ nd_cols a' = nd_cols a /\
  length (nd_data a') = length (nd_data a).
Proof.
  unfold update_cols. case_decide; [|discriminate].
  intros [= <-]. simpl. rewrite length_imap. auto.
Qed.

Lemma update_cols_wf op a c u a' :
  update_cols op a c u = Ok a' -> wf_array a -> wf_array a'.
Proof.
  intros E Hwf. apply update_cols_shape in E as (Hr & Hc & Hl).
  unfold wf_array in *. congruence.
Qed.

(** Entry [(i, j)] after the update. *)
Lemma update_cols_get op a c u a' i j :
  update_cols op a c u = Ok a' ->
  nd_get a' i j =
    (fun v => if decide (j < c)
              then match broadcast_get u i j with
                   | Some d => op v d
                   | None => v
                   end
              else v) <$> nd_get a i j.
Proof.
  unfold update_cols. case_decide; [|discriminate].
  intros [= <-]. unfold nd_get; simpl.
  case_decide as Hij; [|reflexivity].
  destruct Hij as [Hi Hj].
  rewrite list_lookup_imap.
  rewrite flat_index_div, flat_index_mod by exact Hj.
  destruct (nd_data a !! (i * nd_cols a + j)); simpl; [|reflexivity].
  f_equal. repeat case_decide; try reflexivity; lia.
Qed.

(** Columns from [c] on are not written. *)
Lemma update_cols_frame op a c u a' i j :
  update_cols op a c u = Ok a' -> c <= j -> nd_get a' i j = nd_get a i j.
Proof.
  intros E Hj. rewrite (update_cols_get _ _ _ _ _ _ _ E).
  destruct (nd_get a i j); simpl; [|reflexivity].
  case_decide; [lia|reflexivity].
Qed.

Lemma broadcast_get_flat b k :
  wf_array b -> k < length (nd_data b) ->
  broadcast_get b (k / nd_cols b) (k mod nd_cols b) = nd_data b !! k.
Proof.
  unfold wf_array, broadcast_get, nd_get. intros Hwf Hk.
  rewrite Hwf in Hk.
  assert (Hc : 0 < nd_cols b) by (destruct (nd_cols b); lia).
  pose proof (flat_index_row _ _ _ Hk) as Hrow.
  pose proof (Nat.mod_upper_bound k (nd_cols b) ltac:(lia)) as Hcol.
  pose proof (flat_index_split k (nd_cols b)) as Hsplit.
  revert Hrow Hcol Hsplit.
  generalize (k / nd_cols b) (k mod nd_cols b). intros i j Hrow Hcol Hsplit.
  assert (Hi : (if decide (nd_rows b = 1) then 0 else i) = i).
  { destruct (decide (nd_rows b = 1)); [lia|reflexivity]. }
  assert (Hj : (if decide (nd_cols b = 1) then 0 else j) = j).
  { destruct (decide (nd_cols b = 1)); [lia|reflexivity]. }
  rewrite Hi, Hj. rewrite decide_True by (split; assumption).
  rewrite Hsplit. reflexivity.
Qed.

(** Writing an array over one of its own shape gives that array. *)
Lemma assign_all_same_shape a b :
  wf_array b -> nd_rows a = nd_rows b -> nd_cols a = nd_cols b ->
  length (nd_data a) = length (nd_data b) ->
  assign_all a b = Ok b.
Proof.
  intros Hwf Hr Hc Hl. unfold assign_all, assign_cols, update_cols.
  rewrite decide_True.
  2:{ split; left; [congruence | rewrite Nat.min_id; congruence]. }
  destruct b as [rb cb db]; simpl in *. subst rb cb.
  f_equal. f_equal.
  apply list_eq. intros k. rewrite list_lookup_imap.
  destruct (decide (k < length db)) as [Hk|Hk].
  - destruct (lookup_lt_is_Some_2 (nd_data a) k ltac:(lia)) as [v Hv].
    rewrite Hv. simpl.
    pose proof (broadcast_get_flat (NdArray (nd_rows a) (nd_cols a) db) k Hwf Hk) as Hb.
    simpl in Hb. rewrite Hb.
    destruct (lookup_lt_is_Some_2 db k Hk) as [d Hd]. rewrite Hd.
    unfold wf_array in Hwf; simpl in Hwf.
    assert (0 < nd_cols a) by (destruct (nd_cols a); lia).
    pose proof (Nat.mod_upper_bound k (nd_cols a) ltac:(lia)) as Hm.
    revert Hm. generalize (k mod nd_cols a). intros j Hm.
    rewrite decide_True by lia. reflexivity.
  - rewrite (lookup_ge_None_2 (nd_data a)) by lia.
    rewrite (lookup_ge_None_2 db) by lia. reflexivity.
Qed.

End ArrayFacts.

(** ** The store during the script *)

Section ScriptFacts.
Context {R : Type} `{Scalar R} `{Backend R}.
Implicit Types (h : heap R) (mesh : Mesh) (a : ndarray R).

Lemma read_only_read (l : loc) : read_only (read (R:=R) l).
Proof. intros h. unfold read. destruct (h !! l); reflexivity. Qed.

Lemma read_Ok (l : loc) h a h' :
  read l h = (Ok a, h') -> h !! l = Some a /\ h' = h.
Proof.
  unfold read. destruct (h !! l); intros E; simplify_eq. auto.
Qed.

Lemma np_copy_Ok (l : loc) h ref h' :
  np_copy l h = (Ok ref, h') ->
  exists a, h !! l = Some a /\ ref = length h /\ h' = h ++ [a].
Proof.
  unfold np_copy. destruct (h !! l) as [a|]; intros E; simplify_eq. eauto.
Qed.

Lemma np_copy_Raise (l : loc) h e h' :
  np_copy l h = (Raise e, h') -> h' = h.
Proof.
  unfold np_copy. destruct (h !! l) as [a|]; intros E; simplify_eq. reflexivity.
Qed.

Lemma update_Ok (l : loc) f h h' :
  update l f h = (Ok tt, h') ->
  exists a a', h !! l = Some a /\ f a = Ok a' /\ h' = <[l:=a']> h.
Proof.
  unfold update. destruct (h !! l) as [a|]; [|discriminate].
  destruct (f a) as [a'|e] eqn:Ef; intros E; simplify_eq. eauto.
Qed.

Lemma update_Raise (l : loc) f h e h' :
  update l f h = (Raise e, h') -> h' = h.
Proof.
  unfold update. destruct (h !! l) as [a|]; [|intros E; simplify_eq; reflexivity].
  destruct (f a) as [a'|e0]; intros E; simplify_eq. reflexivity.
Qed.

Lemma read_only_bc_loop mesh boundaries bc_markers bc_function_list range bc_list :
  read_only (bc_loop (R:=R) mesh boundaries bc_markers bc_function_list range bc_list).
Proof.
  revert bc_list. induction range as [|i rest IH]; intros bc_list; simpl.
  - apply read_only_ret.
  - apply read_only_bind; [apply read_only_py_index|]. intros marker.
    apply read_only_bind; [apply read_only_py_index|]. intros f.
    apply read_only_bind; [apply read_only_read|]. intros x.
    apply read_only_bind; [apply read_only_lift|]. intros g.
    apply IH.
Qed.

Lemma read_only_solve_laplace mesh bc_list :
  read_only (solve_laplace (R:=R) mesh bc_list).
Proof.
  unfold solve_laplace.
  apply read_only_bind; [apply read_only_read|]. intros x.
  apply read_only_bind; [apply read_only_lift|]. intros uh.
  case_decide; [apply read_only_ret | apply read_only_raise].
Qed.

Lemma read_only_write_mesh : read_only (write_mesh (R:=R)).
Proof.
  unfold write_mesh. destruct xdmf_ok; [apply read_only_ret | apply read_only_raise].
Qed.

(** A successful entry, statement by statement. *)
Lemma enter_Ok (c : HarmonicMeshMotion.t R) h ref uh h' :
  HarmonicMeshMotion.enter c h = (Ok (ref, uh), h') ->
  exists a a' bcs,
    h !! geometry_x (HarmonicMeshMotion.mesh c) = Some a /\
    ref = length h /\
    bc_loop (HarmonicMeshMotion.mesh c) (HarmonicMeshMotion.boundary_tags c)
      (HarmonicMeshMotion.marker_list c)
      (HarmonicMeshMotion.displacement_function_list c)
      (seq 0 (length (HarmonicMeshMotion.marker_list c))) [] (h ++ [a])
      = (Ok bcs, h ++ [a]) /\
    solve_laplace (HarmonicMeshMotion.mesh c) bcs (h ++ [a]) = (Ok uh, h ++ [a]) /\
    length uh = nd_rows a * gdim /\
    (if HarmonicMeshMotion.is_deformation c
     then iadd_cols add a (geometry_dim (HarmonicMeshMotion.mesh c)) (displacement a uh)
     else assign_cols a (geometry_dim (HarmonicMeshMotion.mesh c)) (displacement a uh))
      = Ok a' /\
    h' = <[geometry_x (HarmonicMeshMotion.mesh c) := a']> (h ++ [a]).
Proof.
  unfold HarmonicMeshMotion.enter. intros E.
  apply bind_Ok in E as (ref0 & h1 & Ecopy & E).
  apply np_copy_Ok in Ecopy as (a & Ha & -> & ->).
  apply bind_Ok in E as (bcs & h2 & Ebc & E).
  pose proof (read_only_run _ _ _ _ (read_only_bc_loop _ _ _ _ _ _) Ebc) as ->.
  apply bind_Ok in E as (uh0 & h3 & Esolve & E).
  pose proof (read_only_run _ _ _ _ (read_only_solve_laplace _ _) Esolve) as ->.
  apply bind_Ok in E as (r & h4 & Eread & E).
  apply read_Ok in Eread as (Hr & ->).
  rewrite lookup_app_r, Nat.sub_diag in Hr by lia. simpl in Hr.
  injection Hr as <-.
  apply bind_Ok in E as (u & h5 & Eresh & E).
  unfold lift_result, reshape in Eresh. case_decide as Hlen; simplify_eq.
  apply bind_Ok in E as ([] & h6 & Eupd & E).
  unfold ret in E. simplify_eq.
  apply update_Ok in Eupd as (a0 & a' & Ha0 & Hf & ->).
  rewrite lookup_app_l in Ha0 by (eapply lookup_lt_Some; eassumption).
  assert (Some a = Some a0) as [= <-] by (rewrite <- Ha; exact Ha0).
  exists a, a', bcs. repeat split; try assumption; reflexivity.
Qed.

(** A failed entry leaves every array of the store as it was; at most the
    snapshot has been added. *)
Lemma enter_Raise (c : HarmonicMeshMotion.t R) h e h' :
  HarmonicMeshMotion.enter c h = (Raise e, h') ->
  h' = h \/ exists a, h !! geometry_x (HarmonicMeshMotion.mesh c) = Some a /\ h' = h ++ [a].
Proof.
  unfold HarmonicMeshMotion.enter. intros E.
  apply bind_Raise in E as [E|(ref0 & h1 & Ecopy & E)].
  { left. eapply np_copy_Raise. exact E. }
  apply np_copy_Ok in Ecopy as (a & Ha & -> & ->).
  right. exists a. split; [exact Ha|].
  apply bind_Raise in E as [E|(bcs & h2 & Ebc & E)].
  { eapply read_only_run; [apply read_only_bc_loop | exact E]. }
  pose proof (read_only_run _ _ _ _ (read_only_bc_loop _ _ _ _ _ _) Ebc) as ->.
  apply bind_Raise in E as [E|(uh0 & h3 & Esolve & E)].
  { eapply read_only_run; [apply read_only_solve_laplace | exact E]. }
  pose proof (read_only_run _ _ _ _ (read_only_solve_laplace _ _) Esolve) as ->.
  apply bind_Raise in E as [E|(r & h4 & Eread & E)].
  { eapply read_only_run; [apply read_only_read | exact E]. }
  apply read_Ok in Eread as (Hr & ->).
  apply bind_Raise in E as [E|(u & h5 & Eresh & E)].
  { eapply read_only_run; [apply read_only_lift | exact E]. }
  pose proof (read_only_run _ _ _ _ (read_only_lift _) Eresh) as ->.
  apply bind_Raise in E as [E|([] & h6 & Eupd & E)].
  { eapply update_Raise. exact E. }
  unfold ret in E. discriminate.
Qed.

(** The script's entry is the context's entry in the additive mode. *)
Lemma deform_enter mesh boundaries bc_markers bc_function_list reset :
  deform mesh boundaries bc_markers bc_function_list =
  HarmonicMeshMotion.enter
    {| HarmonicMeshMotion.mesh := mesh;
       HarmonicMeshMotion.boundary_tags := boundaries;
       HarmonicMeshMotion.marker_list := bc_markers;
       HarmonicMeshMotion.displacement_function_list := bc_function_list;
       HarmonicMeshMotion.reset_reference := reset;
       HarmonicMeshMotion.is_deformation := true |}.
Proof. reflexivity. Qed.

(** Restoring after an entry writes the snapshot back. *)
Lemma restore_after_update mesh h a a' :
  h !! geometry_x mesh = Some a -> wf_array a ->
  nd_rows a' = nd_rows a -> nd_cols a' = nd_cols a ->
  length (nd_data a') = length (nd_data a) ->
  restore mesh (length h) (<[geometry_x mesh := a']> (h ++ [a]))
  = (Ok tt, <[geometry_x mesh := a]> (h ++ [a])).
Proof.
  intros Ha Hwf Hr Hc Hl.
  pose proof (lookup_lt_Some _ _ _ Ha) as Hlt.
  unfold restore, bind, read.
  rewrite list_lookup_insert_ne by lia.
  rewrite lookup_app_r, Nat.sub_diag by lia. simpl.
  unfold update.
  rewrite list_lookup_insert_eq by (rewrite length_app; simpl; lia).
  rewrite (assign_all_same_shape a' a Hwf Hr Hc Hl).
  rewrite list_insert_insert_eq. reflexivity.
Qed.

End ScriptFacts.

(** ** Sums, rows and the constrained system *)

Lemma map_fmap {A B} (f : A -> B) (l : list A) : map f l = f <$> l.
Proof. induction l as [|x l IH]; simpl; [reflexivity|]. rewrite IH. reflexivity. Qed.

Lemma lookup_map {A B} (f : A -> B) (l : list A) (i : nat) :
  map f l !! i = f <$> l !! i.
Proof. rewrite map_fmap. apply list_lookup_fmap. Qed.

Lemma lookup_map_seq {B} (f : nat -> B) (n i : nat) :
  i < n -> map f (seq 0 n) !! i = Some (f i).
Proof.
  intros Hi. rewrite lookup_map, lookup_seq_lt by exact Hi. reflexivity.
Qed.

Lemma length_map_seq {B} (f : nat -> B) (s n : nat) : length (map f (seq s n)) = n.
Proof. rewrite length_map, length_seq. reflexivity. Qed.

Section Sums.
Context {R : Type} `{Scalar R}.
Hypothesis Rth : ring_theory zero one add mul sub opp (@eq R).

Add Ring scalar_ring : Rth.

Lemma sum_map_ext {A} (f g : A -> R) (l : list A) :
  (forall j, j ∈ l -> f j = g j) ->
  sum_list (map f l) = sum_list (map g l).
Proof.
  induction l as [|x l IH]; intros Hfg; simpl; [reflexivity|].
  rewrite (Hfg x) by left. rewrite IH; [reflexivity|].
  intros j Hj. apply Hfg. right. exact Hj.
Qed.

Lemma sum_map_add {A} (f g : A -> R) (l : list A) :
  sum_list (map (fun j => add (f j) (g j)) l) =
  add (sum_list (map f l)) (sum_list (map g l)).
Proof.
  induction l as [|x l IH]; simpl.
  - ring.
  - rewrite IH. ring.
Qed.

Lemma sum_map_zero {A} (f : A -> R) (l : list A) :
  (forall j, j ∈ l -> f j = zero) -> sum_list (map f l) = zero.
Proof.
  induction l as [|x l IH]; intros Hf; simpl; [reflexivity|].
  rewrite (Hf x) by left. rewrite IH.
  - ring.
  - intros j Hj. apply Hf. right. exact Hj.
Qed.

(** A sum with one non-zero term. *)
Lemma sum_map_single (f : nat -> R) (d s n : nat) :
  s <= d < s + n ->
  (forall j, j <> d -> f j = zero) ->
  sum_list (map f (seq s n)) = f d.
Proof.
  revert s. induction n as [|n IH]; intros s Hd Hf; [lia|]. simpl.
  destruct (decide (s = d)) as [->|Hne].
  - rewrite sum_map_zero.
    + ring.
    + intros j Hj. apply elem_of_seq in Hj. apply Hf. lia.
  - rewrite (Hf s Hne), IH by (auto; lia). ring.
Qed.

(** The product of a row given by its entries with a vector. *)
Lemma dot_map_seq (f : nat -> R) (x : list R) (s : nat) :
  dot (map f (seq s (length x))) x =
  sum_list (map (fun j => mul (f j) (value_at x (j - s))) (seq s (length x))).
Proof.
  revert s. induction x as [|v x IH]; intros s; [reflexivity|].
  simpl. unfold dot in *. simpl.
  rewrite IH. replace (s - s) with 0 by lia. unfold value_at at 1. simpl.
  f_equal. apply sum_map_ext. intros j Hj. apply elem_of_seq in Hj.
  unfold value_at. replace (j - s) with (S (j - S s)) by lia. reflexivity.
Qed.

Lemma dot_row (f : nat -> R) (x : list R) :
  dot (map f (seq 0 (length x))) x =
  sum_list (map (fun j => mul (f j) (value_at x j)) (seq 0 (length x))).
Proof.
  rewrite dot_map_seq. apply sum_map_ext. intros j _.
  rewrite Nat.sub_0_r. reflexivity.
Qed.

(** Row [i] of a solved system. *)
Lemma matvec_row (f : nat -> nat -> R) (x F : list R) (i : nat) :
  i < length x ->
  matvec (map (fun i => map (f i) (seq 0 (length x))) (seq 0 (length x))) x = F ->
  F !! i = Some (sum_list (map (fun j => mul (f i j) (value_at x j))
                               (seq 0 (length x)))).
Proof.
  intros Hi <-. unfold matvec.
  rewrite lookup_map, lookup_map_seq by exact Hi. simpl.
  rewrite dot_row. reflexivity.
Qed.

End Sums.

(** ** The marker and value arrays *)

Section ConstraintFacts.
Context {R : Type} `{Scalar R}.
Implicit Types (bc : DirichletBC R) (bcs : list (DirichletBC R)) (b F : list R).

Lemma foldl_set_length (g : list R) (l : list nat) b :
  length (foldl (fun vs d => match g !! d with
                             | Some v => <[d:=v]> vs
                             | None => vs
                             end) b l) = length b.
Proof.
  revert b. induction l as [|d0 l IH]; intros b; simpl; [reflexivity|].
  rewrite IH. destruct (g !! d0); [apply length_insert|reflexivity].
Qed.

Lemma foldl_set_lookup (g : list R) (l : list nat) b d :
  foldl (fun vs d => match g !! d with
                     | Some v => <[d:=v]> vs
                     | None => vs
                     end) b l !! d =
  match (if decide (d ∈ l) then g !! d else None) with
  | Some v => if decide (d < length b) then Some v else None
  | None => b !! d
  end.
Proof.
  revert b. induction l as [|d0 l IH]; intros b; cbn [foldl].
  - rewrite decide_False by apply not_elem_of_nil. reflexivity.
  - rewrite IH.
    assert (Hlen : length (match g !! d0 with
                           | Some v => <[d0:=v]> b
                           | None => b
                           end) = length b).
    { destruct (g !! d0); [apply length_insert|reflexivity]. }
    rewrite Hlen.
    destruct (decide (d ∈ l)) as [Hin|Hin].
    + rewrite decide_True by (right; exact Hin).
      destruct (g !! d) as [v|] eqn:Eg; [reflexivity|].
      destruct (decide (d = d0)) as [->|Hne].
      * rewrite Eg. reflexivity.
      * destruct (g !! d0); [|reflexivity].
        apply list_lookup_insert_ne. auto.
    + destruct (decide (d = d0)) as [->|Hne].
      * rewrite decide_True by left.
        destruct (g !! d0) as [v|]; [|reflexivity].
        destruct (decide (d0 < length b)) as [Hlt|Hge].
        -- apply list_lookup_insert_eq. exact Hlt.
        -- rewrite list_insert_ge by lia. apply lookup_ge_None_2. lia.
      * rewrite decide_False.
        2:{ intros Hin'. apply elem_of_cons in Hin' as [?|?]; auto. }
        destruct (g !! d0); [|reflexivity].
        apply list_lookup_insert_ne. auto.
Qed.

Lemma dof_values_length b bc : length (dof_values b bc) = length b.
Proof. apply foldl_set_length. Qed.

Lemma dof_values_lookup b bc d :
  dof_values b bc !! d =
  match imposed bc d with
  | Some v => if decide (d < length b) then Some v else None
  | None => b !! d
  end.
Proof. apply foldl_set_lookup. Qed.

Lemma set_bc_length F bcs : length (set_bc F bcs) = length F.
Proof.
  unfold set_bc. revert F. induction bcs as [|bc bcs IH]; intros F; simpl.
  - reflexivity.
  - rewrite IH. apply dof_values_length.
Qed.

(** After [set_bc] an entry holds the value of the last condition that
    imposes one on it, and its old value when none does. *)
Lemma set_bc_lookup F bcs d :
  set_bc F bcs !! d =
  match last (covering bcs d) with
  | Some v => if decide (d < length F) then Some v else None
  | None => F !! d
  end.
Proof.
  induction bcs as [|bc bcs IH] using rev_ind; [reflexivity|].
  unfold set_bc in *. rewrite foldl_app. simpl.
  rewrite dof_values_lookup.
  fold (set_bc F bcs). rewrite set_bc_length.
  unfold covering. rewrite omap_app. simpl.
  destruct (imposed bc d) as [v|].
  - rewrite last_snoc. reflexivity.
  - rewrite app_nil_r. exact IH.
Qed.

Lemma bc_values_of_lookup N bcs d :
  bc_values_of N bcs !! d =
  match last (covering bcs d) with
  | Some v => if decide (d < N) then Some v else None
  | None => replicate N zero !! d
  end.
Proof.
  unfold bc_values_of. fold (set_bc (replicate N zero) bcs).
  rewrite set_bc_lookup, length_replicate. reflexivity.
Qed.

Lemma mark_dofs_length (ms : list bool) bc : length (mark_dofs ms bc) = length ms.
Proof.
  unfold mark_dofs. generalize (unrolled bc). intros l. revert ms.
  induction l as [|d0 l IH]; intros ms; simpl; [reflexivity|].
  rewrite IH. apply length_insert.
Qed.

Lemma mark_dofs_lookup (ms : list bool) bc d :
  is_marked (mark_dofs ms bc) d =
  is_marked ms d || bool_decide (d ∈ unrolled bc /\ d < length ms).
Proof.
  unfold mark_dofs. generalize (unrolled bc). intros l. revert ms.
  induction l as [|d0 l IH]; intros ms; cbn [foldl].
  - rewrite bool_decide_eq_false_2; [rewrite orb_false_r; reflexivity|].
    intros [Hin _]. apply not_elem_of_nil in Hin. exact Hin.
  - rewrite IH, length_insert. unfold is_marked.
    destruct (decide (d = d0)) as [->|Hne].
    + destruct (decide (d0 < length ms)) as [Hlt|Hge].
      * rewrite list_lookup_insert_eq by exact Hlt. simpl.
        rewrite (bool_decide_eq_true_2 (d0 ∈ d0 :: l /\ _)) by (split; [left|exact Hlt]).
        rewrite orb_true_r. reflexivity.
      * rewrite list_insert_ge by lia.
        rewrite !bool_decide_eq_false_2 by lia. reflexivity.
    + rewrite list_lookup_insert_ne by auto. f_equal.
      apply bool_decide_ext. rewrite elem_of_cons. intuition.
Qed.

Lemma bc_markers_of_length N bcs : length (bc_markers_of N bcs) = N.
Proof.
  unfold bc_markers_of.
  induction bcs as [|bc bcs IH] using rev_ind; simpl.
  - apply length_replicate.
  - rewrite foldl_app. simpl. rewrite mark_dofs_length. exact IH.
Qed.

(** A degree of freedom is marked exactly when it is constrained. *)
Lemma is_marked_constrained N bcs d :
  is_marked (bc_markers_of N bcs) d = true <-> d < N /\ constrained bcs d.
Proof.
  unfold constrained.
  induction bcs as [|bc bcs IH] using rev_ind.
  - unfold bc_markers_of, is_marked. simpl. split.
    + intros Hm. destruct (replicate N false !! d) as [b|] eqn:E; [|discriminate].
      apply lookup_replicate in E as [-> _]. discriminate.
    + intros [_ Hex]. apply Exists_nil in Hex. destruct Hex.
  - pose proof (bc_markers_of_length N bcs) as Hlen.
    unfold bc_markers_of in *. rewrite foldl_app. simpl.
    rewrite mark_dofs_lookup, Hlen, orb_true_iff, IH, bool_decide_eq_true.
    rewrite Exists_app, Exists_cons, Exists_nil. tauto.
Qed.

Lemma is_marked_unconstrained N bcs d :
  ~ constrained bcs d -> is_marked (bc_markers_of N bcs) d = false.
Proof.
  intros Hn. destruct (is_marked (bc_markers_of N bcs) d) eqn:E; [|reflexivity].
  apply is_marked_constrained in E as [_ Hc]. contradiction.
Qed.

Lemma covering_nil_unconstrained bcs d :
  ~ constrained bcs d -> covering bcs d = [].
Proof.
  unfold constrained, covering, imposed.
  induction bcs as [|bc bcs IH]; intros Hn; [reflexivity|]. simpl.
  rewrite decide_False by (intros Hin; apply Hn; left; exact Hin).
  simpl. apply IH. intros Hex. apply Hn. right. exact Hex.
Qed.

(** With conditions whose functions have a value at every degree of freedom,
    a constrained one has an imposed value. *)
Lemma covering_last_constrained N bcs d :
  Forall (fun bc => length (bc_g bc) = N) bcs -> d < N ->
  constrained bcs d -> is_Some (last (covering bcs d)).
Proof.
  unfold constrained, covering.
  induction bcs as [|bc bcs IH] using rev_ind; intros Hall Hd Hex.
  - apply Exists_nil in Hex. destruct Hex.
  - apply Forall_app in Hall as [Hall Hbc].
    apply Forall_cons in Hbc as [Hbc _].
    rewrite omap_app. simpl. unfold imposed at 2.
    destruct (decide (d ∈ unrolled bc)) as [Hin|Hin].
    + destruct (lookup_lt_is_Some_2 (bc_g bc) d ltac:(lia)) as [v Hv].
      rewrite Hv. rewrite last_snoc. eauto.
    + rewrite app_nil_r. apply IH; [exact Hall|exact Hd|].
      apply Exists_app in Hex as [Hex|Hex]; [exact Hex|].
      apply Exists_cons in Hex as [Hex|Hex]; [contradiction|].
      apply Exists_nil in Hex. destruct Hex.
Qed.

End ConstraintFacts.

(** ** The solved system *)

Section System.
Context {R : Type} `{Scalar R}.
Hypothesis Rth : ring_theory zero one add mul sub opp (@eq R).
Implicit Types (bc : DirichletBC R) (bcs : list (DirichletBC R)) (uh : list R).

Add Ring scalar_ring_system : Rth.

Lemma value_at_lookup uh d : d < length uh -> uh !! d = Some (value_at uh d).
Proof.
  intros Hd. unfold value_at.
  destruct (lookup_lt_is_Some_2 uh d Hd) as [v ->]. reflexivity.
Qed.

Lemma covering_constrained bcs d v :
  last (covering bcs d) = Some v -> constrained bcs d.
Proof.
  intros Hlast. destruct (decide (constrained bcs d)) as [Hc|Hn]; [exact Hc|].
  rewrite (covering_nil_unconstrained bcs d Hn) in Hlast. discriminate.
Qed.

Lemma lifted_length (a : nat -> nat -> R) N bcs :
  length (apply_lifting (assemble_vector N) a N bcs) = N.
Proof.
  unfold apply_lifting, assemble_vector.
  rewrite length_imap, length_replicate. reflexivity.
Qed.

Lemma lifted_lookup (a : nat -> nat -> R) N bcs i :
  i < N ->
  apply_lifting (assemble_vector N) a N bcs !! i =
  Some (sub zero
          (sum_list (map (fun j => if is_marked (bc_markers_of N bcs) j
                                   then mul (a i j) (value_at (bc_values_of N bcs) j)
                                   else zero)
                         (seq 0 N)))).
Proof.
  intros Hi. unfold apply_lifting, assemble_vector.
  rewrite list_lookup_imap, lookup_replicate_2 by exact Hi. reflexivity.
Qed.

(** Row [d] of the assembled system, for a solution [uh]. *)
Lemma system_row (a : nat -> nat -> R) bcs uh d :
  d < length uh ->
  matvec (assemble_matrix a (length uh) bcs) uh
  = set_bc (apply_lifting (assemble_vector (length uh)) a (length uh) bcs) bcs ->
  set_bc (apply_lifting (assemble_vector (length uh)) a (length uh) bcs) bcs !! d
  = Some (sum_list
            (map (fun j =>
                    mul (if is_marked (bc_markers_of (length uh) bcs) d
                            || is_marked (bc_markers_of (length uh) bcs) j
                         then (if decide (d = j) then one else zero)
                         else a d j)
                        (value_at uh j))
                 (seq 0 (length uh)))).
Proof.
  intros Hd Hsys. unfold assemble_matrix in Hsys.
  exact (matvec_row _ uh _ d Hd Hsys).
Qed.

(** The Dirichlet rows: a solution takes, at a constrained degree of
    freedom, the value of the last condition that imposes one. *)
Lemma system_boundary (a : nat -> nat -> R) bcs uh d v :
  d < length uh ->
  matvec (assemble_matrix a (length uh) bcs) uh
  = set_bc (apply_lifting (assemble_vector (length uh)) a (length uh) bcs) bcs ->
  last (covering bcs d) = Some v ->
  uh !! d = Some v.
Proof.
  intros Hd Hsys Hlast.
  pose proof (system_row a bcs uh d Hd Hsys) as Hrow.
  rewrite set_bc_lookup, Hlast, lifted_length, decide_True in Hrow by exact Hd.
  assert (Hm : is_marked (bc_markers_of (length uh) bcs) d = true).
  { apply is_marked_constrained. split; [exact Hd|].
    eapply covering_constrained. exact Hlast. }
  rewrite Hm in Hrow. simpl in Hrow.
  rewrite (sum_map_single Rth _ d 0 (length uh)) in Hrow.
  - rewrite decide_True in Hrow by reflexivity.
    rewrite value_at_lookup by exact Hd.
    injection Hrow as ->. f_equal. ring.
  - lia.
  - intros j Hj. rewrite decide_False by auto. ring.
Qed.

(** The other rows: the form applied to a solution vanishes at every
    unconstrained degree of freedom. *)
Lemma system_harmonic (a : nat -> nat -> R) bcs uh i :
  i < length uh ->
  Forall (fun bc => length (bc_g bc) = length uh) bcs ->
  matvec (assemble_matrix a (length uh) bcs) uh
  = set_bc (apply_lifting (assemble_vector (length uh)) a (length uh) bcs) bcs ->
  ~ constrained bcs i ->
  sum_list (map (fun j => mul (a i j) (value_at uh j)) (seq 0 (length uh))) = zero.
Proof.
  intros Hi Hg Hsys Hfree.
  pose proof (system_row a bcs uh i Hi Hsys) as Hrow.
  rewrite set_bc_lookup, (covering_nil_unconstrained bcs i Hfree) in Hrow.
  simpl in Hrow. rewrite lifted_lookup in Hrow by exact Hi.
  rewrite (is_marked_unconstrained _ bcs i Hfree) in Hrow. simpl in Hrow.
  injection Hrow as Hrow.
  set (ms := bc_markers_of (length uh) bcs) in *.
  set (vs := bc_values_of (length uh) bcs) in *.
  set (lift := sum_list (map (fun j => if is_marked ms j
                                       then mul (a i j) (value_at vs j)
                                       else zero) (seq 0 (length uh)))) in *.
  assert (Hsplit :
    sum_list (map (fun j => mul (a i j) (value_at uh j)) (seq 0 (length uh))) =
    add (sum_list (map (fun j => mul (if is_marked ms j
                                      then (if decide (i = j) then one else zero)
                                      else a i j) (value_at uh j))
                       (seq 0 (length uh))))
        lift).
  { unfold lift. rewrite <- sum_map_add by exact Rth.
    apply sum_map_ext. intros j Hj. apply elem_of_seq in Hj.
    destruct (is_marked ms j) eqn:Hmj.
    - assert (Hc : constrained bcs j).
      { apply (is_marked_constrained (length uh)) in Hmj as [_ Hc]. exact Hc. }
      assert (Hij : i <> j) by (intros ->; contradiction).
      rewrite decide_False by exact Hij.
      destruct (covering_last_constrained (length uh) bcs j Hg ltac:(lia) Hc)
        as [v Hv].
      pose proof (system_boundary a bcs uh j v ltac:(lia) Hsys Hv) as Huj.
      assert (Hvj : vs !! j = Some v).
      { unfold vs. rewrite bc_values_of_lookup, Hv.
        rewrite decide_True by lia. reflexivity. }
      unfold value_at. rewrite Huj, Hvj. simpl. ring.
    - ring. }
  rewrite Hsplit, <- Hrow. ring.
Qed.

End System.

(** ** The conditions built by the pairing loop *)

Section Conditions.
Context {R : Type} `{Scalar R} `{Backend R}.
Implicit Types (h : heap R) (mesh : Mesh) (a x : ndarray R)
  (bc : DirichletBC R) (bcs : list (DirichletBC R)).

Lemma interpolate_Ok f x bs g :
  interpolate f x bs = Ok g ->
  g = concat (map (fun i => f (nd_row x i)) (seq 0 (nd_rows x))) /\
  Forall (fun v => length v = bs) (map (fun i => f (nd_row x i)) (seq 0 (nd_rows x))).
Proof.
  unfold interpolate. case_decide as Hall; [|discriminate].
  intros [= <-]. split; [reflexivity|exact Hall].
Qed.

Lemma bc_loop_Ok mesh boundaries ms fs range acc h a bcs h' :
  h !! geometry_x mesh = Some a ->
  bc_loop mesh boundaries ms fs range acc h = (Ok bcs, h') ->
  exists new,
    bcs = acc ++ new /\ length new = length range /\
    forall k i, range !! k = Some i ->
      exists m f, ms !! i = Some m /\ fs !! i = Some f /\ shaped mesh a f /\
                  new !! k = Some (bc_of mesh boundaries a m f).
Proof.
  intros Ha. revert acc. induction range as [|i rest IH]; intros acc E; simpl in E.
  - unfold ret in E. injection E as <- <-. exists []. rewrite app_nil_r.
    split; [reflexivity|split; [reflexivity|]]. intros k i Hk. discriminate.
  - apply bind_Ok in E as (m & h1 & Em & E).
    unfold py_index in Em. destruct (ms !! i) as [m0|] eqn:Hm; [|discriminate].
    unfold ret in Em. injection Em as -> <-.
    apply bind_Ok in E as (f & h2 & Ef & E).
    unfold py_index in Ef. destruct (fs !! i) as [f0|] eqn:Hf; [|discriminate].
    unfold ret in Ef. injection Ef as -> <-.
    apply bind_Ok in E as (x & h3 & Ex & E).
    apply read_Ok in Ex as (Hx & ->).
    assert (Some a = Some x) as [= <-] by (rewrite <- Ha; exact Hx).
    apply bind_Ok in E as (g & h4 & Eg & E).
    unfold lift_result in Eg. injection Eg as Eg <-.
    apply interpolate_Ok in Eg as (-> & Hshape).
    apply IH in E as (new & -> & Hlen & Hnew).
    exists (bc_of mesh boundaries a m f :: new).
    split; [rewrite <- app_assoc; reflexivity|].
    split; [simpl; rewrite Hlen; reflexivity|].
    intros [|k] j Hk; simpl in Hk.
    + injection Hk as <-. exists m, f. auto.
    + apply Hnew. exact Hk.
Qed.

(** The list of conditions of the script, position by position. *)
Lemma script_conditions mesh boundaries ms fs h a bcs h' :
  h !! geometry_x mesh = Some a ->
  bc_loop mesh boundaries ms fs (seq 0 (length ms)) [] h = (Ok bcs, h') ->
  length bcs = length ms /\
  forall k, k < length ms ->
    exists m f, ms !! k = Some m /\ fs !! k = Some f /\ shaped mesh a f /\
                bcs !! k = Some (bc_of mesh boundaries a m f).
Proof.
  intros Ha E. apply (bc_loop_Ok _ _ _ _ _ _ _ a) in E as (new & -> & Hlen & Hnew);
    [|exact Ha].
  simpl. rewrite length_seq in Hlen. split; [exact Hlen|].
  intros k Hk. apply (Hnew k k). apply lookup_seq_lt. exact Hk.
Qed.

Lemma length_concat_uniform {A} (ls : list (list A)) (k : nat) :
  Forall (fun v => length v = k) ls -> length (concat ls) = length ls * k.
Proof.
  induction 1 as [|v ls Hv _ IH]; simpl; [reflexivity|].
  rewrite length_app, IH, Hv. reflexivity.
Qed.

Lemma lookup_concat_uniform {A} (ls : list (list A)) (k n c : nat) :
  Forall (fun v => length v = k) ls -> c < k ->
  concat ls !! (n * k + c) = ls !! n ≫= (.!! c).
Proof.
  intros Hall Hc. revert n. induction Hall as [|v ls Hv _ IH]; intros n; simpl.
  - rewrite !lookup_nil. reflexivity.
  - destruct n as [|n]; simpl.
    + apply lookup_app_l. lia.
    + rewrite lookup_app_r by lia.
      replace (k + n * k + c - length v) with (n * k + c) by lia.
      apply IH.
Qed.

Lemma bc_of_length mesh boundaries x m f :
  shaped mesh x f -> length (bc_g (bc_of mesh boundaries x m f))
                     = nd_rows x * geometry_dim mesh.
Proof.
  intros Hs. simpl. rewrite (length_concat_uniform _ _ Hs).
  rewrite length_map_seq. reflexivity.
Qed.

(** The value of the interpolated function at component [c] of node [n]. *)
Lemma bc_of_value mesh boundaries x m f n c :
  shaped mesh x f -> n < nd_rows x -> c < geometry_dim mesh ->
  bc_g (bc_of mesh boundaries x m f) !! (n * geometry_dim mesh + c)
  = f (nd_row x n) !! c.
Proof.
  intros Hs Hn Hc. simpl.
  rewrite (lookup_concat_uniform _ _ n c Hs Hc).
  rewrite lookup_map_seq by exact Hn. reflexivity.
Qed.

(** The nodes that [find] and [locate_dofs_topological] return for a marker
    are the nodes on a facet tagged with it. *)
Lemma locate_on_marker mesh boundaries m n :
  n ∈ locate_dofs_topological mesh (find boundaries m) <->
  on_marker mesh boundaries m n.
Proof.
  unfold locate_dofs_topological, on_marker, find.
  rewrite merge_sort_Permutation, elem_of_remove_dups, list_elem_of_bind.
  split.
  - intros (e & Hn & He).
    apply list_elem_of_omap in He as ([e0 w] & Hin & Hsel).
    case_decide as Hw; [|discriminate]. injection Hsel as ->. subst w.
    apply list_elem_of_lookup in Hin as [p Hp].
    apply lookup_zip_with_Some in Hp as (e1 & w1 & Heq & He1 & Hw1).
    injection Heq as <- <-.
    destruct (topology_facets mesh !! e) as [nodes|] eqn:Hf; simpl in Hn.
    + exists p, e, nodes. auto.
    + apply not_elem_of_nil in Hn. destruct Hn.
  - intros (p & e & nodes & He & Hm & Hf & Hn).
    exists e. rewrite Hf. simpl. split; [exact Hn|].
    apply list_elem_of_omap. exists (e, m). split.
    + apply list_elem_of_lookup. exists p.
      apply lookup_zip_with_Some. exists e, m. auto.
    + rewrite decide_True by reflexivity. reflexivity.
Qed.

(** The degrees of freedom of a condition are the components of its nodes. *)
Lemma elem_of_unrolled bc d :
  d ∈ unrolled bc <->
  exists n c, n ∈ bc_dofs bc /\ c < bc_bs bc /\ d = n * bc_bs bc + c.
Proof.
  unfold unrolled. rewrite list_elem_of_bind. split.
  - intros (n & Hd & Hn). rewrite map_fmap in Hd.
    apply list_elem_of_fmap in Hd as (c & -> & Hc).
    apply elem_of_seq in Hc. exists n, c. split; [exact Hn|]. split; [lia|reflexivity].
  - intros (n & c & Hn & Hc & ->). exists n. split; [|exact Hn].
    rewrite map_fmap. apply list_elem_of_fmap. exists c. split; [reflexivity|].
    apply elem_of_seq. lia.
Qed.

Lemma unrolled_bc_of mesh boundaries x m f n c :
  c < geometry_dim mesh ->
  n * geometry_dim mesh + c ∈ unrolled (bc_of mesh boundaries x m f) <->
  on_marker mesh boundaries m n.
Proof.
  intros Hc. rewrite elem_of_unrolled. simpl. split.
  - intros (n' & c' & Hn' & Hc' & Heq).
    assert (n' = n) as ->.
    { rewrite <- (flat_index_div n c _ Hc), Heq. symmetry.
      apply flat_index_div. exact Hc'. }
    apply locate_on_marker. exact Hn'.
  - intros Hon. exists n, c. split; [apply locate_on_marker; exact Hon|]. auto.
Qed.

End Conditions.

(** ** The solved field of the script *)

Lemma table_solve_sound {R : Type} `{Scalar R} `{EqDecision R}
    (table : list (list R)) A F x :
  table_solve table A F = Ok x -> matvec A x = F.
Proof.
  unfold table_solve.
  destruct (head (filter (fun x => matvec A x = F) table)) as [y|] eqn:E; [|discriminate].
  intros [= <-]. apply head_Some_elem_of in E.
  apply list_elem_of_filter in E as [E _]. exact E.
Qed.

Section Solved.
Context {R : Type} `{Scalar R} `{Backend R}.
Hypothesis Rth : ring_theory zero one add mul sub opp (@eq R).
Hypothesis Hsound : sound_solver.
Implicit Types (h : heap R) (mesh : Mesh) (a : ndarray R)
  (bc : DirichletBC R) (bcs : list (DirichletBC R)).

Lemma solve_laplace_Ok mesh bcs h a uh h' :
  h !! geometry_x mesh = Some a ->
  solve_laplace mesh bcs h = (Ok uh, h') ->
  length uh = nd_rows a * geometry_dim mesh /\
  matvec (assemble_matrix (a_form mesh a) (length uh) bcs) uh
  = set_bc (apply_lifting (assemble_vector (length uh)) (a_form mesh a)
              (length uh) bcs) bcs.
Proof.
  intros Ha E. unfold solve_laplace in E.
  apply bind_Ok in E as (x & h1 & Ex & E).
  apply read_Ok in Ex as (Hx & ->).
  assert (Some a = Some x) as [= <-] by (rewrite <- Ha; exact Hx).
  apply bind_Ok in E as (uh0 & h2 & Es & E).
  unfold lift_result in Es. injection Es as Es <-.
  case_decide as Hlen; [|discriminate].
  unfold ret in E. injection E as <- <-.
  split; [exact Hlen|]. rewrite Hlen. apply Hsound. exact Es.
Qed.

(** The conditions of the script give a value at every degree of freedom. *)
Lemma script_conditions_length mesh boundaries ms fs h a bcs h' :
  h !! geometry_x mesh = Some a ->
  bc_loop mesh boundaries ms fs (seq 0 (length ms)) [] h = (Ok bcs, h') ->
  Forall (fun bc => length (bc_g bc) = nd_rows a * geometry_dim mesh) bcs.
Proof.
  intros Ha E. destruct (script_conditions _ _ _ _ _ _ _ _ Ha E) as (Hlen & Hk).
  apply Forall_lookup_2. intros k bc Hbc.
  destruct (Hk k) as (m & f & _ & _ & Hs & Hbk).
  { rewrite <- Hlen. eapply lookup_lt_Some. exact Hbc. }
  assert (Some bc = Some (bc_of mesh boundaries a m f)) as [= ->]
    by (rewrite <- Hbc; exact Hbk).
  apply bc_of_length. exact Hs.
Qed.

(** A degree of freedom of a node on no listed marker is unconstrained. *)
Lemma script_unconstrained mesh boundaries ms fs h a bcs h' n c :
  h !! geometry_x mesh = Some a ->
  bc_loop mesh boundaries ms fs (seq 0 (length ms)) [] h = (Ok bcs, h') ->
  c < geometry_dim mesh ->
  (forall k m, ms !! k = Some m -> ~ on_marker mesh boundaries m n) ->
  ~ constrained bcs (n * geometry_dim mesh + c).
Proof.
  intros Ha E Hc Hfree Hcon.
  destruct (script_conditions _ _ _ _ _ _ _ _ Ha E) as (Hlen & Hk).
  apply Exists_exists in Hcon as (bc & Hin & Hd).
  apply list_elem_of_lookup in Hin as [k Hbc].
  destruct (Hk k) as (m & f & Hm & _ & _ & Hbk).
  { rewrite <- Hlen. eapply lookup_lt_Some. exact Hbc. }
  assert (Some bc = Some (bc_of mesh boundaries a m f)) as [= ->]
    by (rewrite <- Hbc; exact Hbk).
  apply unrolled_bc_of in Hd; [|exact Hc].
  exact (Hfree k m Hm Hd).
Qed.

(** The value imposed on a node by the last listed pair that covers it. *)
Lemma script_covering mesh boundaries ms fs h a bcs h' k m f n c :
  h !! geometry_x mesh = Some a ->
  bc_loop mesh boundaries ms fs (seq 0 (length ms)) [] h = (Ok bcs, h') ->
  ms !! k = Some m -> fs !! k = Some f ->
  on_marker mesh boundaries m n -> n < nd_rows a -> c < geometry_dim mesh ->
  (forall k' m', k < k' -> ms !! k' = Some m' -> ~ on_marker mesh boundaries m' n) ->
  exists v, f (nd_row a n) !! c = Some v /\
            last (covering bcs (n * geometry_dim mesh + c)) = Some v.
Proof.
  intros Ha E Hm Hf Hon Hn Hc Hlater.
  destruct (script_conditions _ _ _ _ _ _ _ _ Ha E) as (Hlen & Hk).
  pose proof (lookup_lt_Some _ _ _ Hm) as Hklt.
  destruct (Hk k Hklt) as (m0 & f0 & Hm0 & Hf0 & Hs & Hbk).
  assert (Some m = Some m0) as [= <-] by (rewrite <- Hm; exact Hm0).
  assert (Some f = Some f0) as [= <-] by (rewrite <- Hf; exact Hf0).
  set (d := n * geometry_dim mesh + c).
  assert (Hval : bc_g (bc_of mesh boundaries a m f) !! d = f (nd_row a n) !! c).
  { apply bc_of_value; assumption. }
  assert (Hsome : is_Some (f (nd_row a n) !! c)).
  { rewrite <- Hval. apply lookup_lt_is_Some_2.
    rewrite (bc_of_length _ _ _ _ _ Hs). unfold d. nia. }
  destruct Hsome as [v Hv]. exists v. split; [exact Hv|].
  rewrite <- (take_drop_middle bcs k _ Hbk).
  unfold covering. rewrite omap_app. simpl.
  assert (Himp : imposed (bc_of mesh boundaries a m f) d = Some v).
  { unfold imposed. rewrite decide_True.
    - rewrite Hval. exact Hv.
    - apply unrolled_bc_of; assumption. }
  rewrite Himp.
  assert (Hpost : omap (fun bc => imposed bc d) (drop (S k) bcs) = []).
  { apply (covering_nil_unconstrained (drop (S k) bcs) d).
    intros Hcon. apply Exists_exists in Hcon as (bc & Hin & Hd).
    apply list_elem_of_lookup in Hin as [j Hbc].
    rewrite lookup_drop in Hbc.
    destruct (Hk (S k + j)) as (m' & f' & Hm' & _ & _ & Hbk').
    { rewrite <- Hlen. eapply lookup_lt_Some. exact Hbc. }
    assert (Some bc = Some (bc_of mesh boundaries a m' f')) as [= ->]
      by (rewrite <- Hbc; exact Hbk').
    apply unrolled_bc_of in Hd; [|exact Hc].
    exact (Hlater (S k + j) m' ltac:(lia) Hm' Hd). }
  change (list_omap (DirichletBC R) R (fun bc => imposed bc d) (drop (S k) bcs))
    with (omap (fun bc => imposed bc d) (drop (S k) bcs)).
  rewrite Hpost. apply last_snoc.
Qed.

End Solved.

(** ** The coordinate update and the restore *)

Section Structural.
Context {R : Type} `{Scalar R} `{Backend R}.
Implicit Types (h : heap R) (mesh : Mesh) (a : ndarray R).

(** The entry of the displacement operand that meets position [(i, j)]. *)
Lemma displacement_get a uh i j :
  length uh = nd_rows a * gdim -> i < nd_rows a -> j < gdim ->
  exists u, uh !! (i * gdim + j) = Some u /\
            broadcast_get (displacement a uh) i j = Some u.
Proof.
  intros Hlen Hi Hj.
  assert (Hlt : i * gdim + j < length uh) by (rewrite Hlen; unfold gdim in *; lia).
  destruct (lookup_lt_is_Some_2 uh _ Hlt) as [u Hu].
  exists u. split; [exact Hu|].
  unfold broadcast_get, displacement, nd_get; simpl.
  destruct (decide (nd_rows a = 1)) as [H1|H1].
  - assert (i = 0) as -> by lia.
    rewrite decide_True by (split; assumption). exact Hu.
  - rewrite decide_True by (split; assumption). exact Hu.
Qed.

Lemma nd_get_Some a i j :
  wf_array a -> i < nd_rows a -> j < nd_cols a -> is_Some (nd_get a i j).
Proof.
  unfold wf_array, nd_get. intros Hwf Hi Hj.
  rewrite decide_True by auto.
  apply lookup_lt_is_Some_2. nia.
Qed.

Lemma update_cols_columns op a c u a' :
  update_cols op a c u = Ok a' -> nd_cols u = gdim -> c `min` nd_cols a = gdim.
Proof.
  unfold update_cols. case_decide as Hb; [|discriminate].
  intros _ Hu. destruct Hb as [_ [Hc|Hc]]; unfold gdim in *; lia.
Qed.

(** C1: the script's round trip.  The coordinates are snapshotted with a
    copy, the solved field is added to them in place, and the snapshot is
    written back: whenever the script completes, the coordinate array of the
    mesh is the array it was before the snapshot was taken, entry for entry,
    whatever the markers, the displacement functions and the solved field.
    The store then holds the old arrays and the snapshot, and nothing else. *)
Theorem script_round_trip mesh boundaries bc_markers bc_function_list h h' a :
  h !! geometry_x mesh = Some a -> wf_array a ->
  script mesh boundaries bc_markers bc_function_list h = (Ok tt, h') ->
  h' !! geometry_x mesh = Some a /\ h' = h ++ [a].
Proof.
  intros Ha Hwf E. unfold script in E.
  apply bind_Ok in E as ([ref uh] & h1 & Edef & E).
  rewrite (deform_enter _ _ _ _ true) in Edef.
  apply enter_Ok in Edef as (a0 & a' & bcs & Ha0 & -> & _ & _ & _ & Hupd & ->).
  simpl in *.
  assert (Some a = Some a0) as [= <-] by (rewrite <- Ha; exact Ha0).
  apply bind_Ok in E as ([] & h2 & Ew & E).
  pose proof (read_only_run _ _ _ _ read_only_write_mesh Ew) as ->.
  apply update_cols_shape in Hupd as (Hr & Hc & Hl).
  rewrite (restore_after_update mesh h a a' Ha Hwf Hr Hc Hl) in E.
  injection E as <-.
  pose proof (lookup_lt_Some _ _ _ Ha) as Hlt.
  assert (Hid : <[geometry_x mesh := a]> (h ++ [a]) = h ++ [a]).
  { apply list_insert_id. rewrite lookup_app_l by exact Hlt. exact Ha. }
  rewrite Hid. split; [|reflexivity].
  rewrite lookup_app_l by exact Hlt. exact Ha.
Qed.

(** C3: the additive update.  After a successful entry of the script the
    coordinate array holds, at every node [i] and every coordinate [j] below
    the geometric dimension, the sum of the coordinate at entry and of the
    entry [uh[i*gdim + j]] of the field returned by the Laplace solve under
    the assembled Dirichlet conditions; every node is updated by this rule. *)
Theorem additive_update mesh boundaries bc_markers bc_function_list h a ref uh h' :
  h !! geometry_x mesh = Some a -> wf_array a ->
  deform mesh boundaries bc_markers bc_function_list h = (Ok (ref, uh), h') ->
  exists a' bc_list,
    h' !! geometry_x mesh = Some a' /\
    bc_loop mesh boundaries bc_markers bc_function_list
      (seq 0 (length bc_markers)) [] (h ++ [a]) = (Ok bc_list, h ++ [a]) /\
    solve_laplace mesh bc_list (h ++ [a]) = (Ok uh, h ++ [a]) /\
    forall i j, i < nd_rows a -> j < geometry_dim mesh -> j < nd_cols a ->
      exists x_old u,
        nd_get a i j = Some x_old /\ uh !! (i * gdim + j) = Some u /\
        nd_get a' i j = Some (add x_old u).
Proof.
  intros Ha Hwf Edef.
  rewrite (deform_enter _ _ _ _ true) in Edef.
  apply enter_Ok in Edef as (a0 & a' & bcs & Ha0 & -> & Ebc & Esolve & Hlen & Hupd & ->).
  simpl in *.
  assert (Some a = Some a0) as [= <-] by (rewrite <- Ha; exact Ha0).
  pose proof (lookup_lt_Some _ _ _ Ha) as Hlt.
  exists a', bcs. split; [|split; [exact Ebc|split; [exact Esolve|]]].
  { apply list_lookup_insert_eq. rewrite length_app. lia. }
  intros i j Hi Hj Hjc.
  pose proof (update_cols_columns _ _ _ _ _ Hupd eq_refl) as Hmin.
  assert (Hj2 : j < gdim) by lia.
  destruct (nd_get_Some a i j Hwf Hi Hjc) as [x_old Hx].
  destruct (displacement_get a uh i j Hlen Hi Hj2) as (u & Hu & Hb).
  exists x_old, u. split; [exact Hx|split; [exact Hu|]].
  unfold iadd_cols in Hupd.
  rewrite (update_cols_get _ _ _ _ _ i j Hupd), Hx. simpl.
  rewrite decide_True by exact Hj. rewrite Hb. reflexivity.
Qed.

(** C10: the frame of the coordinate update.  A successful entry of the
    script writes only the first [mesh.geometry.dim] columns of the
    coordinate array: the array keeps its shape, every entry in a column
    from the geometric dimension on is unchanged, and so is every other array
    of the store.  The connectivity and the boundary tags are arguments of
    the script and not part of the store it writes. *)
Theorem update_frame mesh boundaries bc_markers bc_function_list h a ref uh h' :
  h !! geometry_x mesh = Some a ->
  deform mesh boundaries bc_markers bc_function_list h = (Ok (ref, uh), h') ->
  exists a',
    h' !! geometry_x mesh = Some a' /\
    nd_rows a' = nd_rows a /\ nd_cols a' = nd_cols a /\
    (forall i j, geometry_dim mesh <= j -> nd_get a' i j = nd_get a i j) /\
    (forall l, l <> geometry_x mesh -> l < length h -> h' !! l = h !! l).
Proof.
  intros Ha Edef.
  rewrite (deform_enter _ _ _ _ true) in Edef.
  apply enter_Ok in Edef as (a0 & a' & bcs & Ha0 & -> & _ & _ & _ & Hupd & ->).
  simpl in *.
  assert (Some a = Some a0) as [= <-] by (rewrite <- Ha; exact Ha0).
  pose proof (lookup_lt_Some _ _ _ Ha) as Hlt.
  exists a'. split.
  { apply list_lookup_insert_eq. rewrite length_app. lia. }
  pose proof (update_cols_shape _ _ _ _ _ Hupd) as (Hr & Hc & _).
  split; [exact Hr|split; [exact Hc|split]].
  - intros i j Hj. eapply update_cols_frame; eassumption.
  - intros l Hne Hl. rewrite list_lookup_insert_ne by auto.
    apply lookup_app_l. exact Hl.
Qed.

End Structural.

(** The round trip on the square: the corner (2,2) is lifted, the deformed
    mesh is written, and the coordinates are those of the start again. *)
Lemma script_round_trip_witness :
  (square_heap ++ [square_x]) !! geometry_x square_mesh = Some square_x /\
  square_heap ++ [square_x] = square_heap ++ [square_x].
Proof.
  apply (script_round_trip (H0 := square_backend [lift_corner_uh] true)
           square_mesh square_tags all_sides
           [lift_corner; lift_corner; lift_corner; lift_corner] square_heap).
  - reflexivity.
  - reflexivity.
  - vm_compute. reflexivity.
Defined.

(** The additive update on the square: node 2, coordinate 1, goes from 2 to
    2 + 4. *)
Lemma additive_update_witness :
  exists a' x_old u,
    nd_get square_x 2 1 = Some x_old /\ lift_corner_uh !! 5 = Some u /\
    nd_get a' 2 1 = Some (x_old + u)%Z.
Proof.
  assert (E : deform (H0 := square_backend [lift_corner_uh] true)
                square_mesh square_tags all_sides
                [lift_corner; lift_corner; lift_corner; lift_corner] square_heap
              = (Ok (1, lift_corner_uh),
                 <[0 := NdArray 5 3 [0; 0; 0;  2; 0; 0;  2; 6; 0;  0; 2; 0;  1; 2; 0]%Z]>
                   (square_heap ++ [square_x])))
    by (vm_compute; reflexivity).
  destruct (additive_update (H0 := square_backend [lift_corner_uh] true)
              square_mesh square_tags all_sides
              [lift_corner; lift_corner; lift_corner; lift_corner]
              square_heap square_x 1 lift_corner_uh _ eq_refl eq_refl E)
    as (a' & bcs & _ & _ & _ & Hadd).
  destruct (Hadd 2 1) as (x_old & u & Hx & Hu & Ha'); [simpl; lia ..|].
  exists a', x_old, u. auto.
Defined.

(** The frame on the square: the third column of the coordinates stays. *)
Lemma update_frame_witness :
  exists a', nd_rows a' = 5 /\ nd_cols a' = 3 /\
             nd_get a' 4 2 = nd_get square_x 4 2.
Proof.
  assert (E : deform (H0 := square_backend [lift_corner_uh] true)
                square_mesh square_tags all_sides
                [lift_corner; lift_corner; lift_corner; lift_corner] square_heap
              = (Ok (1, lift_corner_uh),
                 <[0 := NdArray 5 3 [0; 0; 0;  2; 0; 0;  2; 6; 0;  0; 2; 0;  1; 2; 0]%Z]>
                   (square_heap ++ [square_x])))
    by (vm_compute; reflexivity).
  destruct (update_frame (H0 := square_backend [lift_corner_uh] true)
              square_mesh square_tags all_sides
              [lift_corner; lift_corner; lift_corner; lift_corner]
              square_heap square_x 1 lift_corner_uh _ eq_refl E)
    as (a' & _ & Hr & Hc & Hcol & _).
  exists a'. split; [exact Hr|split; [exact Hc|]].
  apply Hcol. simpl. lia.
Defined.

(** ** Exit paths and the pairing loop *)

Section Paths.
Context {R : Type} `{Scalar R} `{Backend R}.
Implicit Types (h : heap R) (mesh : Mesh) (a : ndarray R).

Lemma enter_solve_failure (c : HarmonicMeshMotion.t R) h a bcs e :
  h !! geometry_x (HarmonicMeshMotion.mesh c) = Some a ->
  bc_loop (HarmonicMeshMotion.mesh c) (HarmonicMeshMotion.boundary_tags c)
    (HarmonicMeshMotion.marker_list c)
    (HarmonicMeshMotion.displacement_function_list c)
    (seq 0 (length (HarmonicMeshMotion.marker_list c))) [] (h ++ [a])
    = (Ok bcs, h ++ [a]) ->
  fst (solve_laplace (HarmonicMeshMotion.mesh c) bcs (h ++ [a])) = Raise e ->
  HarmonicMeshMotion.enter c h = (Raise e, h ++ [a]).
Proof.
  intros Ha Ebc Esolve. unfold HarmonicMeshMotion.enter.
  assert (Ecopy : np_copy (geometry_x (HarmonicMeshMotion.mesh c)) h
                  = (Ok (length h), h ++ [a])).
  { unfold np_copy. rewrite Ha. reflexivity. }
  rewrite (bind_run _ _ _ _ _ Ecopy).
  rewrite (bind_run _ _ _ _ _ Ebc).
  unfold bind at 1.
  pose proof (read_only_solve_laplace (HarmonicMeshMotion.mesh c) bcs (h ++ [a])) as Hro.
  destruct (solve_laplace (HarmonicMeshMotion.mesh c) bcs (h ++ [a])) as [r h1].
  simpl in *. subst. reflexivity.
Qed.


(** The pairing loop reads the function list only at the indices of its
    range. *)
Lemma bc_loop_ext mesh boundaries bc_markers fs fs' range bc_list h :
  (forall i, i ∈ range -> fs !! i = fs' !! i) ->
  bc_loop (R:=R) mesh boundaries bc_markers fs range bc_list h =
  bc_loop mesh boundaries bc_markers fs' range bc_list h.
Proof.
  revert bc_list h. induction range as [|i rest IH]; intros bc_list h Hext; simpl.
  - reflexivity.
  - unfold bind, py_index.
    destruct (bc_markers !! i) as [marker|]; simpl; [|reflexivity].
    rewrite (Hext i) by left.
    destruct (fs' !! i) as [f|]; simpl; [|reflexivity].
    destruct (read (geometry_x mesh) h) as [[x|e] h1]; [|reflexivity].
    unfold lift_result.
    destruct (interpolate f x (geometry_dim mesh)) as [g|e]; [|reflexivity].
    apply IH. intros k Hk. apply Hext. right. exact Hk.
Qed.

(** A range that reaches past the end of the function list makes the loop
    raise. *)
Lemma bc_loop_short mesh boundaries bc_markers fs s n bc_list h :
  s <= length fs < s + n ->
  exists e, bc_loop (R:=R) mesh boundaries bc_markers fs (seq s n) bc_list h
            = (Raise e, h).
Proof.
  revert s bc_list. induction n as [|n IH]; intros s bc_list Hs; [lia|].
  simpl. unfold bind, py_index.
  destruct (bc_markers !! s) as [marker|]; simpl; [|eauto].
  destruct (fs !! s) as [f|] eqn:Ef; simpl; [|eauto].
  pose proof (read_only_read (geometry_x mesh) h) as Hro.
  destruct (read (geometry_x mesh) h) as [[x|e] h1]; simpl in Hro; subst h1; [|eauto].
  unfold lift_result.
  destruct (interpolate f x (geometry_dim mesh)) as [g|e]; [|eauto].
  apply IH. apply lookup_lt_Some in Ef. lia.
Qed.

(** C6, as the pairing loop has it: a marker list longer than the function
    list makes the entry fail with an exception that reaches the caller; a
    function list longer than the marker list does not: its surplus is never
    read, and the entry is the entry with the function list cut to the
    length of the marker list. *)
Theorem pairing_of_unequal_lists mesh boundaries bc_markers fs h :
  (length fs < length bc_markers ->
   exists e h', deform mesh boundaries bc_markers fs h = (Raise e, h')) /\
  (length bc_markers <= length fs ->
   deform mesh boundaries bc_markers fs h =
   deform mesh boundaries bc_markers (take (length bc_markers) fs) h).
Proof.
  split; intros Hlen; unfold deform.
  - unfold bind at 1.
    destruct (np_copy (geometry_x mesh) h) as [[ref|e] h1]; [|eauto].
    unfold bind at 1.
    destruct (bc_loop_short mesh boundaries bc_markers fs 0 (length bc_markers) [] h1)
      as [e Ee]; [lia|].
    rewrite Ee. eauto.
  - apply bind_ext_r. intros ref h1. apply bind_ext_l.
    apply bc_loop_ext.
    intros i Hi. apply elem_of_seq in Hi.
    symmetry. apply lookup_take_lt. lia.
Qed.

End Paths.


(** C6 as stated fails: four markers and five functions are paired without
    any error, the fifth function being ignored. *)
Lemma length_mismatch_accepted :
  length all_sides <> length [lift_corner; lift_corner; lift_corner; lift_corner; shift_up] /\
  fst (deform (H0 := square_backend [lift_corner_uh] true)
         square_mesh square_tags all_sides
         [lift_corner; lift_corner; lift_corner; lift_corner; shift_up]
         square_heap)
  = Ok (1, lift_corner_uh).
Proof. split; [discriminate | reflexivity]. Qed.

Lemma pairing_of_unequal_lists_witness :
  (exists e h', deform (H0 := square_backend [lift_corner_uh] true)
                  square_mesh square_tags all_sides [lift_corner] square_heap
                = (Raise e, h')) /\
  deform (H0 := square_backend [lift_corner_uh] true)
    square_mesh square_tags all_sides
    [lift_corner; lift_corner; lift_corner; lift_corner; shift_up] square_heap
  = deform (H0 := square_backend [lift_corner_uh] true)
      square_mesh square_tags all_sides
      [lift_corner; lift_corner; lift_corner; lift_corner] square_heap.
Proof.
  split.
  - apply (pairing_of_unequal_lists (H0 := square_backend [lift_corner_uh] true)
             square_mesh square_tags all_sides [lift_corner] square_heap).
    simpl. lia.
  - apply (pairing_of_unequal_lists (H0 := square_backend [lift_corner_uh] true)
             square_mesh square_tags all_sides
             [lift_corner; lift_corner; lift_corner; lift_corner; shift_up]
             square_heap).
    simpl. lia.
Defined.

(** ** The solved field: boundary values and harmonicity *)

Section SolvedField.
Context {R : Type} `{Scalar R} `{Backend R}.
Hypothesis Rth : ring_theory zero one add mul sub opp (@eq R).
Implicit Types (h : heap R) (mesh : Mesh) (a : ndarray R)
  (bc : DirichletBC R) (bcs : list (DirichletBC R)).

(** C2, as the assembled system has it: at every component of a node on a
    facet tagged with a listed marker, the solved field equals the
    displacement function of the last listed pair whose marker covers the
    node, evaluated at the coordinates the node has when the conditions are
    built (the reference coordinates).  The conditions are applied in the
    order of the list, so at a node shared by two listed markers the later
    pair decides.  The pairing loop and the solve take no mode flag: the
    statement is the same for both values of [is_deformation].  Scalars form
    a commutative ring and the solver returns a solution of the system. *)
Theorem boundary_values mesh boundaries ms fs h a bcs uh k m f n c :
  sound_solver ->
  h !! geometry_x mesh = Some a ->
  bc_loop mesh boundaries ms fs (seq 0 (length ms)) [] h = (Ok bcs, h) ->
  solve_laplace mesh bcs h = (Ok uh, h) ->
  ms !! k = Some m -> fs !! k = Some f ->
  on_marker mesh boundaries m n -> n < nd_rows a -> c < geometry_dim mesh ->
  (forall k' m', k < k' -> ms !! k' = Some m' -> ~ on_marker mesh boundaries m' n) ->
  exists v, f (nd_row a n) !! c = Some v /\
            uh !! (n * geometry_dim mesh + c) = Some v.
Proof.
  intros Hsound Ha Ebc Esolve Hm Hf Hon Hn Hc Hlater.
  destruct (solve_laplace_Ok Hsound _ _ _ _ _ _ Ha Esolve) as (Hlen & Hsys).
  destruct (script_covering _ _ _ _ _ _ _ _ _ _ _ _ _ Ha Ebc Hm Hf Hon Hn Hc Hlater)
    as (v & Hv & Hlast).
  exists v. split; [exact Hv|].
  apply (system_boundary Rth (a_form mesh a) bcs uh); [|exact Hsys|exact Hlast].
  rewrite Hlen. nia.
Qed.


(** A node whose facets carry only unlisted markers gets no condition: none
    of its degrees of freedom is constrained, its rows of the assembled
    matrix are rows of the form, and the solved field satisfies the free
    (zero-Neumann) equation there. *)
Lemma unlisted_node_is_free mesh boundaries ms fs h a bcs uh n c :
  sound_solver ->
  h !! geometry_x mesh = Some a ->
  bc_loop mesh boundaries ms fs (seq 0 (length ms)) [] h = (Ok bcs, h) ->
  solve_laplace mesh bcs h = (Ok uh, h) ->
  n < nd_rows a -> c < geometry_dim mesh ->
  (forall m, on_marker mesh boundaries m n -> m ∉ ms) ->
  ~ constrained bcs (n * geometry_dim mesh + c) /\
  is_marked (bc_markers_of (length uh) bcs) (n * geometry_dim mesh + c) = false /\
  laplacian mesh a uh (n * geometry_dim mesh + c) = zero.
Proof.
  intros Hsound Ha Ebc Esolve Hn Hc Hunlisted.
  assert (Hfree : forall k m, ms !! k = Some m -> ~ on_marker mesh boundaries m n).
  { intros k m Hm Hon. apply (Hunlisted m Hon).
    apply list_elem_of_lookup. exists k. exact Hm. }
  pose proof (script_unconstrained _ _ _ _ _ _ _ _ n c Ha Ebc Hc Hfree) as Hunc.
  split; [exact Hunc|]. split.
  - apply is_marked_unconstrained. exact Hunc.
  - destruct (solve_laplace_Ok Hsound _ _ _ _ _ _ Ha Esolve) as (Hlen & Hsys).
    pose proof (script_conditions_length _ _ _ _ _ _ _ _ Ha Ebc) as Hg.
    unfold laplacian. rewrite <- Hlen in *.
    apply (system_harmonic Rth (a_form mesh a) bcs uh); try assumption.
    rewrite Hlen. nia.
Qed.

End SolvedField.

(** ** The solved field on the square *)

Lemma Z_ring : ring_theory (R:=Z) zero one add mul sub opp eq.
Proof. exact InitialRing.Zth. Qed.

Lemma square_backend_sound table io : sound_solver (H0 := square_backend table io).
Proof. intros A F x E. eapply table_solve_sound. exact E. Qed.

(** Membership of a node in the facets of a marker, by computation. *)
Ltac on_marker_yes :=
  apply locate_on_marker; apply (bool_decide_unpack _); vm_compute; exact I.
Ltac on_marker_no :=
  rewrite <- locate_on_marker; apply (bool_decide_unpack _); vm_compute; exact I.

(** The field of the lifted corner takes the value of [lift_corner] at the
    corner (2,2), which the third listed pair covers last. *)
Lemma boundary_values_witness :
  exists v, lift_corner (nd_row square_x 2) !! 1 = Some v /\
            lift_corner_uh !! (2 * geometry_dim square_mesh + 1) = Some v.
Proof.
  set (B := square_backend [lift_corner_uh] true).
  set (fs := [lift_corner; lift_corner; lift_corner; lift_corner]).
  set (h := square_heap ++ [square_x]).
  destruct (bc_loop square_mesh square_tags all_sides fs
              (seq 0 (length all_sides)) [] h) as [r h1] eqn:Ebc.
  assert (Hh1 : h1 = h).
  { eapply read_only_run; [apply read_only_bc_loop|exact Ebc]. }
  subst h1.
  assert (Hr : exists bcs, r = Ok bcs /\
            solve_laplace (H0 := B) square_mesh bcs h = (Ok lift_corner_uh, h)).
  { vm_compute in Ebc. injection Ebc as <-. eexists. split; [reflexivity|].
    vm_compute. reflexivity. }
  destruct Hr as (bcs & -> & Esolve).
  apply (boundary_values (H0 := B) Z_ring square_mesh square_tags all_sides fs h
           square_x bcs lift_corner_uh 2 3%Z lift_corner 2 1
           (square_backend_sound _ _) eq_refl Ebc Esolve eq_refl eq_refl).
  - on_marker_yes.
  - simpl. lia.
  - simpl. lia.
  - intros k' m' Hk Hm.
    destruct k' as [|[|[|[|k']]]]; try lia; [|discriminate].
    injection Hm as <-. on_marker_no.
Defined.

(** C2 as stated fails at a node shared by two listed markers with different
    functions: node 1 lies on a facet tagged 1, whose function gives (0, 3)
    there, and on a facet tagged 2, listed later, whose function gives
    (6, 0); the solved field at node 1 is (6, 0). *)
Lemma shared_node_takes_last_pair :
  on_marker square_mesh square_tags 1 1 /\
  [1; 2]%Z !! 0 = Some 1%Z /\ [shift_up; shift_right] !! 0 = Some shift_up /\
  fst (deform (H0 := square_backend [shared_corner_uh] true)
         square_mesh square_tags [1; 2]%Z [shift_up; shift_right] square_heap)
  = Ok (1, shared_corner_uh) /\
  shared_corner_uh !! (1 * 2 + 1) <> shift_up (nd_row square_x 1) !! 1.
Proof.
  split; [on_marker_yes|].
  split; [reflexivity|]. split; [reflexivity|].
  split; [vm_compute; reflexivity|]. vm_compute. discriminate.
Qed.




(** ** The two modes of the context *)

Section Modes.
Context {R : Type} `{Scalar R} `{Backend R}.
Hypothesis Rth : ring_theory zero one add mul sub opp (@eq R).
Implicit Types (h : heap R) (a : ndarray R) (c : HarmonicMeshMotion.t R).


End Modes.


(** ** Two contexts in sequence *)

Section Composition.
Context {R : Type} `{Scalar R} `{Backend R}.
Hypothesis Rth : ring_theory zero one add mul sub opp (@eq R).
Hypothesis Hsound : sound_solver.
Variables (mesh : Mesh) (boundaries : MeshTags) (ms : list Z).
Implicit Types (h : heap R) (a : ndarray R) (f : list R -> list R).

Add Ring scalar_ring_compose : Rth.

Local Abbreviation kept := (keeping mesh boundaries ms).

Lemma nd_row_lookup a n j :
  n < nd_rows a -> nd_row a n !! j = nd_get a n j.
Proof.
  intros Hn. unfold nd_row, nd_get.
  destruct (decide (j < nd_cols a)) as [Hj|Hj].
  - rewrite lookup_take_lt, lookup_drop by exact Hj.
    rewrite decide_True by auto. reflexivity.
  - rewrite lookup_take_ge by lia. rewrite decide_False by lia. reflexivity.
Qed.

Lemma with_context_keeping {A} fs (body : M (heap R) A) h r h' :
  read_only body ->
  HarmonicMeshMotion.with_context (kept fs) body h = (Ok r, h') ->
  exists ref uh, HarmonicMeshMotion.enter (kept fs) h = (Ok (ref, uh), h').
Proof.
  intros Hbody E. unfold HarmonicMeshMotion.with_context in E.
  apply bind_Ok in E as ([ref uh] & h1 & Een & E).
  pose proof (Hbody h1) as Hb. destruct (body h1) as [rb hb]. simpl in *. subst hb.
  unfold HarmonicMeshMotion.exit, ret in E. simpl in E.
  injection E as _ <-. eauto.
Qed.

(** What the entry of a keeping context does to a node covered last by the
    pair at position [k]. *)
Lemma enter_node fs h a ref uh h' k m f n :
  h !! geometry_x mesh = Some a -> wf_array a -> geometry_dim mesh <= nd_cols a ->
  HarmonicMeshMotion.enter (kept fs) h = (Ok (ref, uh), h') ->
  ms !! k = Some m -> fs !! k = Some f ->
  on_marker mesh boundaries m n -> n < nd_rows a ->
  (forall k' m', k < k' -> ms !! k' = Some m' -> ~ on_marker mesh boundaries m' n) ->
  exists a',
    h' !! geometry_x mesh = Some a' /\ wf_array a' /\
    nd_rows a' = nd_rows a /\ nd_cols a' = nd_cols a /\
    nd_row a' n = displace (nd_row a n) (f (nd_row a n)) /\
    forall j, j < geometry_dim mesh ->
      exists x v, nd_get a n j = Some x /\ f (nd_row a n) !! j = Some v /\
                  nd_get a' n j = Some (add x v).
Proof.
  intros Ha Hwf Hdim E Hm Hf Hon Hn Hlater.
  apply enter_Ok in E as (a0 & a' & bcs & Ha0 & -> & Ebc & Esolve & Hlen & Hupd & ->).
  simpl in *.
  assert (Some a = Some a0) as [= <-] by (rewrite <- Ha; exact Ha0).
  pose proof (lookup_lt_Some _ _ _ Ha) as Hlt.
  unfold iadd_cols in Hupd.
  pose proof (update_cols_columns _ _ _ _ _ Hupd eq_refl) as Hmin.
  assert (Hgdim : geometry_dim mesh = gdim) by lia.
  pose proof (update_cols_shape _ _ _ _ _ Hupd) as (Hr & Hc & _).
  assert (Hax : (h ++ [a]) !! geometry_x mesh = Some a).
  { rewrite lookup_app_l by exact Hlt. exact Ha. }
  assert (Hentry : forall j, j < geometry_dim mesh ->
            exists x v, nd_get a n j = Some x /\ f (nd_row a n) !! j = Some v /\
                        nd_get a' n j = Some (add x v)).
  { intros j Hj.
    destruct (solve_laplace_Ok Hsound _ _ _ _ _ _ Hax Esolve) as (HlenN & Hsys).
    destruct (script_covering _ _ _ _ _ _ _ _ _ _ _ _ j Hax Ebc Hm Hf Hon Hn Hj Hlater)
      as (v & Hv & Hlast).
    assert (Huh : uh !! (n * geometry_dim mesh + j) = Some v).
    { apply (system_boundary Rth (a_form mesh a) bcs uh);
        [rewrite HlenN; nia|exact Hsys|exact Hlast]. }
    destruct (nd_get_Some a n j Hwf Hn ltac:(lia)) as [x Hx].
    destruct (displacement_get a uh n j Hlen Hn ltac:(lia)) as (u & Hu & Hb).
    rewrite Hgdim in Huh. rewrite Huh in Hu. injection Hu as <-.
    exists x, v. split; [exact Hx|split; [exact Hv|]].
    rewrite (update_cols_get _ _ _ _ _ n j Hupd), Hx. simpl.
    rewrite decide_True by exact Hj. rewrite Hb. reflexivity. }
  assert (Hshape : length (f (nd_row a n)) = geometry_dim mesh).
  { destruct (script_conditions _ _ _ _ _ _ _ _ Hax Ebc) as (_ & Hk).
    destruct (Hk k (lookup_lt_Some _ _ _ Hm)) as (m0 & f0 & _ & Hf0 & Hs & _).
    assert (Some f = Some f0) as [= <-] by (rewrite <- Hf; exact Hf0).
    unfold shaped in Hs. rewrite Forall_lookup in Hs.
    apply (Hs n). apply (lookup_map_seq (fun i => f (nd_row a i))). exact Hn. }
  exists a'. split.
  { apply list_lookup_insert_eq. rewrite length_app. lia. }
  split; [eapply update_cols_wf; eassumption|].
  split; [exact Hr|split; [exact Hc|split; [|exact Hentry]]].
  apply list_eq. intros j. unfold displace.
  rewrite list_lookup_imap, !nd_row_lookup by lia.
  destruct (decide (j < geometry_dim mesh)) as [Hj|Hj].
  - destruct (Hentry j Hj) as (x & v & Hx & Hv & Hget).
    rewrite Hget, Hx, Hv. reflexivity.
  - rewrite (update_cols_frame _ _ _ _ _ n j Hupd) by lia.
    rewrite (lookup_ge_None_2 (f (nd_row a n)) j) by lia.
    destruct (nd_get a n j); reflexivity.
Qed.


End Composition.

(** The solver of the rational examples is sound, and rationals form a
    ring. *)
Lemma Qc_ring : ring_theory (R:=Qc) zero one add mul sub opp eq.
Proof. exact Qcrt. Qed.

Lemma unit_square_backend_sound : sound_solver (H0 := unit_square_backend).
Proof. intros A F x E. eapply table_solve_sound. exact E. Qed.

(** The integer stiffness table of the square is the degree-1 stiffness
    matrix of its triangles. *)
Lemma square_form_is_p1 :
  Forall (fun i =>
    Forall (fun j =>
      p1_form square_mesh unit_square_x i j
      = Q2Qc (inject_Z (square_form square_mesh square_x i j)))
      (seq 0 10)) (seq 0 10).
Proof. apply (bool_decide_unpack _). vm_compute. exact I. Qed.



(** * Further properties of the first tutorial *)

(** ** Outcomes of the script and of its entry *)

Section ScriptOutcomes.
Context {R : Type} `{Scalar R} `{Backend R}.
Implicit Types (h : heap R) (mesh : Mesh) (a : ndarray R).

Lemma solve_laplace_length mesh bcs h a uh h' :
  h !! geometry_x mesh = Some a ->
  solve_laplace mesh bcs h = (Ok uh, h') ->
  length uh = nd_rows a * geometry_dim mesh.
Proof.
  intros Ha E. unfold solve_laplace in E.
  apply bind_Ok in E as (x & h1 & Ex & E).
  apply read_Ok in Ex as (Hx & ->).
  assert (Some a = Some x) as [= <-] by (rewrite <- Ha; exact Hx).
  apply bind_Ok in E as (uh0 & h2 & Es & E).
  unfold lift_result in Es. injection Es as Es <-.
  case_decide as Hlen; [|discriminate].
  unfold ret in E. injection E as <- <-. exact Hlen.
Qed.

(** X1: how the script can fail.  An exception of the script is either an
    exception of its entry, and then the coordinates are the ones of the
    start, or the failure of the file output after a successful entry, and
    then the restore of line 126 is not reached: the store is the one the
    entry left, with the deformed coordinates in the mesh and the snapshot
    beside them.  The restore itself never raises. *)
Theorem script_failure_paths mesh boundaries bc_markers bc_function_list h a e h' :
  h !! geometry_x mesh = Some a -> wf_array a ->
  script mesh boundaries bc_markers bc_function_list h = (Raise e, h') ->
  (deform mesh boundaries bc_markers bc_function_list h = (Raise e, h') /\
   h' !! geometry_x mesh = Some a)
  \/
  (e = IOError /\ xdmf_ok = false /\
   exists ref uh,
     deform mesh boundaries bc_markers bc_function_list h = (Ok (ref, uh), h') /\
     h' !! ref = Some a).
Proof.
  intros Ha Hwf E. unfold script in E.
  pose proof (lookup_lt_Some _ _ _ Ha) as Hlt.
  apply bind_Raise in E as [E|([ref uh] & h1 & Edef & E)].
  - left. split; [exact E|].
    rewrite (deform_enter _ _ _ _ true) in E.
    apply enter_Raise in E as [->|(a0 & Ha0 & ->)]; [exact Ha|].
    simpl. rewrite lookup_app_l by exact Hlt. exact Ha.
  - right. simpl in E.
    pose proof Edef as Edef'.
    rewrite (deform_enter _ _ _ _ true) in Edef'.
    apply enter_Ok in Edef' as (a0 & a' & bcs & Ha0 & -> & _ & _ & _ & Hupd & ->).
    simpl in *.
    assert (Some a = Some a0) as [= <-] by (rewrite <- Ha; exact Ha0).
    apply update_cols_shape in Hupd as (Hr & Hc & Hl).
    unfold write_mesh in E. destruct xdmf_ok eqn:Hio.
    + unfold bind at 1, ret at 1 in E.
      rewrite (restore_after_update mesh h a a' Ha Hwf Hr Hc Hl) in E.
      discriminate.
    + unfold bind, raise in E. injection E as <- <-.
      split; [reflexivity|]. split; [reflexivity|].
      exists (length h), uh. split; [exact Edef|].
      rewrite list_lookup_insert_ne by lia.
      rewrite lookup_app_r, Nat.sub_diag by lia. reflexivity.
Qed.

(** X2: the script completes.  Whenever the entry succeeds and the file
    output does not fail, the script returns: the restore of line 126 cannot
    raise.  The store at the end is the store of the start with one array
    more, the snapshot; every array of the start, the coordinates among
    them, is as it was. *)
Theorem script_completes mesh boundaries bc_markers bc_function_list h a ref uh h1 :
  h !! geometry_x mesh = Some a -> wf_array a -> xdmf_ok = true ->
  deform mesh boundaries bc_markers bc_function_list h = (Ok (ref, uh), h1) ->
  script mesh boundaries bc_markers bc_function_list h = (Ok tt, h ++ [a]).
Proof.
  intros Ha Hwf Hio Edef. unfold script.
  rewrite (bind_run _ _ _ _ _ Edef). simpl.
  rewrite (deform_enter _ _ _ _ true) in Edef.
  apply enter_Ok in Edef as (a0 & a' & bcs & Ha0 & -> & _ & _ & _ & Hupd & ->).
  simpl in *.
  assert (Some a = Some a0) as [= <-] by (rewrite <- Ha; exact Ha0).
  unfold write_mesh. rewrite Hio. unfold bind at 1, ret at 1.
  apply update_cols_shape in Hupd as (Hr & Hc & Hl).
  rewrite (restore_after_update mesh h a a' Ha Hwf Hr Hc Hl).
  pose proof (lookup_lt_Some _ _ _ Ha) as Hlt.
  rewrite list_insert_id; [reflexivity|].
  rewrite lookup_app_l by exact Hlt. exact Ha.
Qed.


(** X4: when the entry succeeds.  On a mesh of geometric dimension 2 whose
    coordinate storage has at least two columns, the entry succeeds whenever
    the pairing loop and the solve do: neither the reshape nor the in-place
    addition can raise, and the store then holds the updated coordinates and
    the snapshot. *)
Theorem entry_succeeds mesh boundaries bc_markers bc_function_list h a bcs uh :
  h !! geometry_x mesh = Some a ->
  geometry_dim mesh = gdim -> gdim <= nd_cols a ->
  bc_loop mesh boundaries bc_markers bc_function_list
    (seq 0 (length bc_markers)) [] (h ++ [a]) = (Ok bcs, h ++ [a]) ->
  solve_laplace mesh bcs (h ++ [a]) = (Ok uh, h ++ [a]) ->
  exists a',
    iadd_cols add a (geometry_dim mesh) (displacement a uh) = Ok a' /\
    deform mesh boundaries bc_markers bc_function_list h
    = (Ok (length h, uh), <[geometry_x mesh := a']> (h ++ [a])).
Proof.
  intros Ha Hdim Hcols Ebc Esolve.
  pose proof (lookup_lt_Some _ _ _ Ha) as Hlt.
  assert (Hax : (h ++ [a]) !! geometry_x mesh = Some a).
  { rewrite lookup_app_l by exact Hlt. exact Ha. }
  pose proof (solve_laplace_length _ _ _ _ _ _ Hax Esolve) as Hlen.
  rewrite Hdim in Hlen.
  assert (Hadd : exists a', iadd_cols add a (geometry_dim mesh) (displacement a uh) = Ok a').
  { unfold iadd_cols, update_cols. rewrite decide_True; [eauto|].
    unfold broadcastable, displacement. simpl. split; left; [reflexivity|lia]. }
  destruct Hadd as [a' Hadd]. exists a'. split; [exact Hadd|].
  unfold deform.
  assert (Ecopy : np_copy (geometry_x mesh) h = (Ok (length h), h ++ [a])).
  { unfold np_copy. rewrite Ha. reflexivity. }
  rewrite (bind_run _ _ _ _ _ Ecopy).
  rewrite (bind_run _ _ _ _ _ Ebc).
  rewrite (bind_run _ _ _ _ _ Esolve).
  assert (Eread : read (length h) (h ++ [a]) = (Ok a, h ++ [a])).
  { unfold read. rewrite lookup_app_r, Nat.sub_diag by lia. reflexivity. }
  rewrite (bind_run _ _ _ _ _ Eread).
  assert (Eresh : lift_result (reshape uh (nd_rows a) gdim) (h ++ [a])
                  = (Ok (displacement a uh), h ++ [a])).
  { unfold lift_result, reshape. rewrite decide_True by exact Hlen. reflexivity. }
  rewrite (bind_run _ _ _ _ _ Eresh).
  assert (Eupd : update (geometry_x mesh)
                   (fun x => iadd_cols add x (geometry_dim mesh) (displacement a uh))
                   (h ++ [a])
                 = (Ok tt, <[geometry_x mesh := a']> (h ++ [a]))).
  { unfold update. rewrite Hax, Hadd. reflexivity. }
  rewrite (bind_run _ _ _ _ _ Eupd). reflexivity.
Qed.

(** X5: the snapshot is a copy.  After a successful entry the name
    [reference_coordinates] refers to a new array, different from the
    coordinate array of the mesh, and that array still holds the coordinates
    of the start although the mesh has been updated in place. *)
Theorem snapshot_survives_update mesh boundaries bc_markers bc_function_list
    h a ref uh h' :
  h !! geometry_x mesh = Some a ->
  deform mesh boundaries bc_markers bc_function_list h = (Ok (ref, uh), h') ->
  ref = length h /\ ref <> geometry_x mesh /\ h !! ref = None /\
  h' !! ref = Some a /\ length h' = S (length h).
Proof.
  intros Ha E.
  pose proof (lookup_lt_Some _ _ _ Ha) as Hlt.
  rewrite (deform_enter _ _ _ _ true) in E.
  apply enter_Ok in E as (a0 & a' & bcs & Ha0 & -> & _ & _ & _ & _ & ->).
  simpl in *.
  assert (Some a = Some a0) as [= <-] by (rewrite <- Ha; exact Ha0).
  split; [reflexivity|]. split; [lia|].
  split; [apply lookup_ge_None_2; lia|]. split.
  - rewrite list_lookup_insert_ne by lia.
    rewrite lookup_app_r, Nat.sub_diag by lia. reflexivity.
  - rewrite length_insert, length_app. simpl. lia.
Qed.

End ScriptOutcomes.

(** The deformed square that the lifted corner leaves in the store. *)
Lemma lifted_square_entry io :
  deform (H0 := square_backend [lift_corner_uh] io) square_mesh square_tags all_sides
    [lift_corner; lift_corner; lift_corner; lift_corner] square_heap
  = (Ok (1, lift_corner_uh),
     <[0 := NdArray 5 3 [0; 0; 0;  2; 0; 0;  2; 6; 0;  0; 2; 0;  1; 2; 0]%Z]>
       (square_heap ++ [square_x])).
Proof. destruct io; vm_compute; reflexivity. Qed.

(** The file output fails on the square: the script ends with the deformed
    coordinates. *)
Lemma script_failure_paths_witness :
  exists ref uh h',
    deform (H0 := square_backend [lift_corner_uh] false) square_mesh square_tags
      all_sides [lift_corner; lift_corner; lift_corner; lift_corner] square_heap
    = (Ok (ref, uh), h') /\
    h' !! ref = Some square_x.
Proof.
  set (B := square_backend [lift_corner_uh] false).
  assert (E : script (H0 := B) square_mesh square_tags all_sides
                [lift_corner; lift_corner; lift_corner; lift_corner] square_heap
              = (Raise IOError,
                 <[0 := NdArray 5 3 [0; 0; 0;  2; 0; 0;  2; 6; 0;  0; 2; 0;  1; 2; 0]%Z]>
                   (square_heap ++ [square_x])))
    by (vm_compute; reflexivity).
  destruct (script_failure_paths (H0 := B) square_mesh square_tags all_sides
              [lift_corner; lift_corner; lift_corner; lift_corner]
              square_heap square_x IOError _ eq_refl eq_refl E)
    as [[Hdef _]|(_ & _ & ref & uh & Hdef & Href)].
  - unfold B in Hdef. rewrite lifted_square_entry in Hdef. discriminate.
  - exists ref, uh. eexists. split; [exact Hdef|exact Href].
Defined.

Lemma script_completes_witness :
  script (H0 := square_backend [lift_corner_uh] true) square_mesh square_tags
    all_sides [lift_corner; lift_corner; lift_corner; lift_corner] square_heap
  = (Ok tt, square_heap ++ [square_x]).
Proof.
  exact (script_completes (H0 := square_backend [lift_corner_uh] true)
           square_mesh square_tags all_sides
           [lift_corner; lift_corner; lift_corner; lift_corner]
           square_heap square_x 1 lift_corner_uh _
           eq_refl eq_refl eq_refl (lifted_square_entry true)).
Defined.


Lemma entry_succeeds_witness :
  exists a',
    deform (H0 := square_backend [lift_corner_uh] true) square_mesh square_tags
      all_sides [lift_corner; lift_corner; lift_corner; lift_corner] square_heap
    = (Ok (1, lift_corner_uh), <[0 := a']> (square_heap ++ [square_x])).
Proof.
  set (B := square_backend [lift_corner_uh] true).
  set (fs := [lift_corner; lift_corner; lift_corner; lift_corner]).
  set (h := square_heap ++ [square_x]).
  destruct (bc_loop square_mesh square_tags all_sides fs
              (seq 0 (length all_sides)) [] h) as [r h1] eqn:Ebc.
  assert (Hh1 : h1 = h).
  { eapply read_only_run; [apply read_only_bc_loop|exact Ebc]. }
  subst h1.
  assert (Hr : exists bcs, r = Ok bcs /\
            solve_laplace (H0 := B) square_mesh bcs h = (Ok lift_corner_uh, h)).
  { vm_compute in Ebc. injection Ebc as <-. eexists. split; [reflexivity|].
    vm_compute. reflexivity. }
  destruct Hr as (bcs & -> & Esolve).
  destruct (entry_succeeds (H0 := B) square_mesh square_tags all_sides fs
              square_heap square_x bcs lift_corner_uh
              eq_refl eq_refl ltac:(unfold gdim; simpl; lia) Ebc Esolve)
    as (a' & _ & E).
  exists a'. exact E.
Defined.

Lemma snapshot_survives_update_witness :
  1 <> geometry_x square_mesh /\
  (<[0 := NdArray 5 3 [0; 0; 0;  2; 0; 0;  2; 6; 0;  0; 2; 0;  1; 2; 0]%Z]>
     (square_heap ++ [square_x])) !! 1 = Some square_x.
Proof.
  destruct (snapshot_survives_update (H0 := square_backend [lift_corner_uh] true)
              square_mesh square_tags all_sides
              [lift_corner; lift_corner; lift_corner; lift_corner]
              square_heap square_x 1 lift_corner_uh _
              eq_refl (lifted_square_entry true))
    as (_ & Hne & _ & Hsnap & _).
  split; [exact Hne|exact Hsnap].
Defined.

(** ** The pairing loop and the assembled system *)

Section LoopOutcomes.
Context {R : Type} `{Scalar R} `{Backend R}.
Implicit Types (h : heap R) (mesh : Mesh) (a : ndarray R)
  (bc : DirichletBC R) (bcs : list (DirichletBC R)).

Lemma bc_loop_total mesh boundaries ms fs range acc h a :
  h !! geometry_x mesh = Some a ->
  (forall i, i ∈ range ->
     exists m f, ms !! i = Some m /\ fs !! i = Some f /\ shaped mesh a f) ->
  exists bcs, bc_loop mesh boundaries ms fs range acc h = (Ok bcs, h).
Proof.
  intros Ha. revert acc. induction range as [|i rest IH]; intros acc Hall; simpl.
  - exists acc. reflexivity.
  - destruct (Hall i) as (m & f & Hm & Hf & Hs); [left|].
    unfold bind at 1, py_index at 1. rewrite Hm. simpl.
    unfold bind at 1, py_index at 1. rewrite Hf. simpl.
    unfold bind at 1, read at 1. rewrite Ha.
    unfold bind at 1, lift_result at 1, interpolate.
    rewrite decide_True by exact Hs.
    apply IH. intros k Hk. apply Hall. right. exact Hk.
Qed.

(** X6: when the pairing loop succeeds.  The loop of lines 72 to 77 returns
    exactly when every marker has a function at its position and each of
    these functions gives [dim] values at every node; it then holds one
    condition per marker, in the order of the list, each built on the
    coordinates the mesh has at that moment.  Whether a marker tags any
    facet plays no part. *)
Theorem pairing_loop_succeeds mesh boundaries ms fs h a :
  h !! geometry_x mesh = Some a ->
  (exists bcs, bc_loop mesh boundaries ms fs (seq 0 (length ms)) [] h = (Ok bcs, h))
  <->
  (length ms <= length fs /\
   forall k f, k < length ms -> fs !! k = Some f -> shaped mesh a f).
Proof.
  intros Ha. split.
  - intros [bcs E].
    destruct (script_conditions _ _ _ _ _ _ _ _ Ha E) as (_ & Hk).
    split.
    + destruct (decide (length ms <= length fs)) as [Hle|Hgt]; [exact Hle|].
      destruct (Hk (length fs) ltac:(lia)) as (m & f & _ & Hf & _).
      apply lookup_lt_Some in Hf. lia.
    + intros k f Hlt Hf.
      destruct (Hk k Hlt) as (m & f0 & _ & Hf0 & Hs & _).
      assert (Some f = Some f0) as [= <-] by (rewrite <- Hf; exact Hf0).
      exact Hs.
  - intros [Hle Hshaped].
    apply (bc_loop_total _ _ _ _ _ _ _ a Ha).
    intros i Hi. apply elem_of_seq in Hi.
    destruct (lookup_lt_is_Some_2 ms i ltac:(lia)) as [m Hm].
    destruct (lookup_lt_is_Some_2 fs i ltac:(lia)) as [f Hf].
    exists m, f. split; [exact Hm|]. split; [exact Hf|].
    apply (Hshaped i f); [lia|exact Hf].
Qed.

Lemma omap_none {A B} (f : A -> option B) (l : list A) :
  (forall x, x ∈ l -> f x = None) -> omap f l = [].
Proof.
  induction l as [|x l IH]; intros Hf; [reflexivity|]. simpl.
  rewrite (Hf x) by left. apply IH. intros y Hy. apply Hf. right. exact Hy.
Qed.

Lemma find_unknown (boundaries : MeshTags) (m : Z) :
  m ∉ values boundaries -> find boundaries m = [].
Proof.
  intros Hm. unfold find. apply omap_none. intros [e w] Hin.
  apply elem_of_zip_r in Hin. simpl in Hin.
  rewrite decide_False; [reflexivity|]. intros ->. contradiction.
Qed.

Lemma foldl_skip {A B} (f : A -> B -> A) (x : B) (l1 l2 : list B) (s : A) :
  (forall t, f t x = t) -> foldl f s (l1 ++ x :: l2) = foldl f s (l1 ++ l2).
Proof.
  intros Hx. rewrite !foldl_app. simpl. rewrite Hx. reflexivity.
Qed.

(** X7: a listed marker that tags no facet.  [boundaries.find] then returns
    no facet, the condition built for the pair has no degree of freedom, and
    the assembled matrix and right-hand side are the ones obtained without
    the pair, wherever it stands in the list: the pair is accepted and has
    no effect. *)
Theorem unknown_marker_has_no_effect mesh boundaries (x : ndarray R) m f :
  m ∉ values boundaries ->
  find boundaries m = [] /\
  bc_dofs (bc_of mesh boundaries x m f) = [] /\
  forall (a : nat -> nat -> R) N F l1 l2,
    assemble_matrix a N (l1 ++ bc_of mesh boundaries x m f :: l2)
    = assemble_matrix a N (l1 ++ l2) /\
    set_bc (apply_lifting F a N (l1 ++ bc_of mesh boundaries x m f :: l2))
           (l1 ++ bc_of mesh boundaries x m f :: l2)
    = set_bc (apply_lifting F a N (l1 ++ l2)) (l1 ++ l2).
Proof.
  intros Hm. pose proof (find_unknown boundaries m Hm) as Hfind.
  assert (Hdofs : bc_dofs (bc_of mesh boundaries x m f) = []).
  { simpl. rewrite Hfind. reflexivity. }
  split; [exact Hfind|]. split; [exact Hdofs|].
  assert (Hun : unrolled (bc_of mesh boundaries x m f) = []).
  { unfold unrolled. rewrite Hdofs. reflexivity. }
  assert (Hmark : forall ms, mark_dofs ms (bc_of mesh boundaries x m f) = ms).
  { intros ms. unfold mark_dofs. rewrite Hun. reflexivity. }
  assert (Hval : forall b, dof_values b (bc_of mesh boundaries x m f) = b).
  { intros b. unfold dof_values. rewrite Hun. reflexivity. }
  intros a N F l1 l2.
  assert (Hms : bc_markers_of N (l1 ++ bc_of mesh boundaries x m f :: l2)
                = bc_markers_of N (l1 ++ l2)).
  { unfold bc_markers_of. apply foldl_skip. exact Hmark. }
  assert (Hvs : bc_values_of N (l1 ++ bc_of mesh boundaries x m f :: l2)
                = bc_values_of N (l1 ++ l2)).
  { unfold bc_values_of. apply foldl_skip. exact Hval. }
  split.
  - unfold assemble_matrix. rewrite Hms. reflexivity.
  - unfold set_bc, apply_lifting. rewrite Hms, Hvs.
    apply foldl_skip. exact Hval.
Qed.

End LoopOutcomes.

Section SystemSolutions.
Context {R : Type} `{Scalar R}.
Hypothesis Rth : ring_theory zero one add mul sub opp (@eq R).
Implicit Types (bc : DirichletBC R) (bcs : list (DirichletBC R)) (x : list R).

Add Ring scalar_ring_solutions : Rth.

(** A free row of the form, split into the assembled row and the lifted
    part. *)
Lemma free_row_split (a : nat -> nat -> R) N (ms : list bool) (vs x : list R) i :
  (forall j, j < N -> is_marked ms j = true -> value_at x j = value_at vs j) ->
  is_marked ms i = false ->
  sum_list (map (fun j => mul (a i j) (value_at x j)) (seq 0 N)) =
  add (sum_list (map (fun j => mul (if is_marked ms i || is_marked ms j
                                    then (if decide (i = j) then one else zero)
                                    else a i j) (value_at x j))
                     (seq 0 N)))
      (sum_list (map (fun j => if is_marked ms j
                               then mul (a i j) (value_at vs j)
                               else zero) (seq 0 N))).
Proof.
  intros Hval Hi. rewrite <- sum_map_add by exact Rth.
  apply sum_map_ext. intros j Hj. apply elem_of_seq in Hj.
  rewrite Hi. simpl.
  destruct (is_marked ms j) eqn:Hmj.
  - assert (Hij : i <> j) by (intros ->; congruence).
    rewrite decide_False by exact Hij.
    rewrite (Hval j ltac:(lia) Hmj). ring.
  - ring.
Qed.

(** A vector with the imposed values and vanishing free rows solves the
    assembled system. *)
Lemma system_of_values (a : nat -> nat -> R) bcs x :
  Forall (fun bc => length (bc_g bc) = length x) bcs ->
  (forall d v, d < length x -> last (covering bcs d) = Some v -> x !! d = Some v) ->
  (forall i, i < length x -> ~ constrained bcs i ->
     sum_list (map (fun j => mul (a i j) (value_at x j)) (seq 0 (length x))) = zero) ->
  matvec (assemble_matrix a (length x) bcs) x
  = set_bc (apply_lifting (assemble_vector (length x)) a (length x) bcs) bcs.
Proof.
  intros Hg Hbound Hfree.
  set (ms := bc_markers_of (length x) bcs).
  set (vs := bc_values_of (length x) bcs).
  assert (Hvals : forall j, j < (length x) -> is_marked ms j = true ->
                    value_at x j = value_at vs j).
  { intros j Hj Hmj.
    apply (is_marked_constrained (length x)) in Hmj as [_ Hc].
    destruct (covering_last_constrained (length x) bcs j Hg Hj Hc) as [v Hv].
    unfold value_at, vs. rewrite (Hbound j v Hj Hv).
    rewrite bc_values_of_lookup, Hv, decide_True by exact Hj. reflexivity. }
  apply list_eq. intros i.
  destruct (decide (i < (length x))) as [Hi|Hi].
  2:{ rewrite !lookup_ge_None_2; [reflexivity| |].
      - rewrite set_bc_length, lifted_length. lia.
      - unfold matvec, assemble_matrix. rewrite !length_map, length_seq. lia. }
  unfold matvec, assemble_matrix.
  rewrite lookup_map, lookup_map_seq by exact Hi. simpl.
  rewrite dot_row. fold ms.
  rewrite set_bc_lookup, lifted_length.
  destruct (decide (constrained bcs i)) as [Hc|Hc].
  - destruct (covering_last_constrained (length x) bcs i Hg Hi Hc) as [v Hv].
    rewrite Hv, decide_True by exact Hi.
    assert (Hm : is_marked ms i = true).
    { apply is_marked_constrained. split; assumption. }
    rewrite Hm. simpl.
    rewrite (sum_map_single Rth _ i 0 (length x)).
    + rewrite decide_True by reflexivity.
      pose proof (Hbound i v Hi Hv) as Hxi.
      unfold value_at. rewrite Hxi. simpl. f_equal. ring.
    + lia.
    + intros j Hj. rewrite decide_False by auto. ring.
  - rewrite (covering_nil_unconstrained bcs i Hc). simpl.
    rewrite lifted_lookup by exact Hi. fold ms vs. f_equal.
    pose proof (is_marked_unconstrained (length x) bcs i Hc) as Hm. fold ms in Hm.
    pose proof (free_row_split a (length x) ms vs x i Hvals Hm) as Hsplit.
    rewrite (Hfree i Hi Hc) in Hsplit.
    set (row := sum_list (map (fun j => mul (if is_marked ms i || is_marked ms j
                                             then (if decide (i = j) then one else zero)
                                             else a i j) (value_at x j))
                              (seq 0 (length x)))) in *.
    set (lift := sum_list (map (fun j => if is_marked ms j
                                         then mul (a i j) (value_at vs j)
                                         else zero) (seq 0 (length x)))) in *.
    assert (Hrow : row = sub (add row lift) lift) by ring.
    rewrite Hrow, <- Hsplit. reflexivity.
Qed.

(** X8: the solutions of the assembled system.  A vector with one entry
    per degree of freedom solves the system that lines 95 to 100 assemble
    (matrix with the conditions applied, zero source, lifting, [set_bc])
    exactly when it takes, at every constrained degree of freedom, the value
    of the last condition that imposes one, and the form applied to it
    vanishes at every other degree of freedom. *)
Theorem solutions_of_the_system (a : nat -> nat -> R) bcs x :
  Forall (fun bc => length (bc_g bc) = length x) bcs ->
  matvec (assemble_matrix a (length x) bcs) x
  = set_bc (apply_lifting (assemble_vector (length x)) a (length x) bcs) bcs
  <->
  (forall d v, d < length x -> last (covering bcs d) = Some v -> x !! d = Some v) /\
  (forall i, i < length x -> ~ constrained bcs i ->
     sum_list (map (fun j => mul (a i j) (value_at x j)) (seq 0 (length x))) = zero).
Proof.
  intros Hg. split.
  - intros Hsys. split.
    + intros d v Hd Hlast. eapply (system_boundary Rth); eassumption.
    + intros i Hi Hfree. eapply (system_harmonic Rth); eassumption.
  - intros [Hbound Hfree].
    apply system_of_values; assumption.
Qed.

End SystemSolutions.

Lemma pairing_loop_succeeds_witness :
  exists bcs,
    bc_loop square_mesh square_tags all_sides
      [lift_corner; lift_corner; lift_corner; lift_corner; shift_up]
      (seq 0 (length all_sides)) [] square_heap
    = (Ok bcs, square_heap).
Proof.
  apply (proj2 (pairing_loop_succeeds
                  square_mesh square_tags all_sides
                  [lift_corner; lift_corner; lift_corner; lift_corner; shift_up]
                  square_heap square_x eq_refl)).
  split; [simpl; lia|].
  intros k f Hk Hf.
  destruct k as [|[|[|[|k]]]]; simpl in Hk; try lia;
    injection Hf as <-; apply (bool_decide_unpack _); vm_compute; exact I.
Defined.

Lemma unknown_marker_has_no_effect_witness :
  find square_tags 7%Z = [] /\
  bc_dofs (bc_of square_mesh square_tags square_x 7%Z lift_corner) = [].
Proof.
  destruct (unknown_marker_has_no_effect
              square_mesh square_tags square_x 7%Z lift_corner)
    as (Hfind & Hdofs & _).
  - apply (bool_decide_unpack _). vm_compute. exact I.
  - split; [exact Hfind|exact Hdofs].
Defined.

(** The field that shifts the square up solves the system with only the
    bottom side listed: the form vanishes at the centre node. *)
Lemma solutions_of_the_system_witness :
  sum_list (map (fun j => mul (square_form square_mesh square_x 9 j)
                              (value_at shift_up_uh j))
                (seq 0 (length shift_up_uh))) = 0%Z.
Proof.
  set (bcs := [bc_of square_mesh square_tags square_x 1%Z shift_up]).
  assert (Hg : Forall (fun bc => length (bc_g bc) = length shift_up_uh) bcs)
    by (apply (bool_decide_unpack _); vm_compute; exact I).
  assert (Hsys : matvec (assemble_matrix (square_form square_mesh square_x)
                           (length shift_up_uh) bcs) shift_up_uh
                 = set_bc (apply_lifting (assemble_vector (length shift_up_uh))
                             (square_form square_mesh square_x)
                             (length shift_up_uh) bcs) bcs)
    by (vm_compute; reflexivity).
  destruct (proj1 (solutions_of_the_system Z_ring
                     (square_form square_mesh square_x) bcs shift_up_uh Hg) Hsys)
    as [_ Hfree].
  apply (Hfree 9).
  - simpl. lia.
  - apply (bool_decide_unpack _). vm_compute. exact I.
Defined.

(** ** The boundary functions of the tutorials *)

Section TutorialFunctions.
Context {R : Type} `{Scalar R} `{Backend R} `{Numpy R}.
Hypothesis Rth : ring_theory zero one add mul sub opp (@eq R).
Implicit Types (h : heap R) (mesh : Mesh) (a : ndarray R) (p : list R).

Add Ring scalar_ring_tutorial : Rth.

(** The entry of the script at a node covered last by the pair at position
    [k]. *)
Lemma deform_node mesh boundaries ms fs h a ref uh h' k m f n :
  sound_solver ->
  h !! geometry_x mesh = Some a -> wf_array a -> geometry_dim mesh <= nd_cols a ->
  deform mesh boundaries ms fs h = (Ok (ref, uh), h') ->
  ms !! k = Some m -> fs !! k = Some f ->
  on_marker mesh boundaries m n -> n < nd_rows a ->
  (forall k' m', k < k' -> ms !! k' = Some m' -> ~ on_marker mesh boundaries m' n) ->
  exists a',
    h' !! geometry_x mesh = Some a' /\
    nd_row a' n = displace (nd_row a n) (f (nd_row a n)) /\
    forall j, j < geometry_dim mesh ->
      exists x v, nd_get a n j = Some x /\ f (nd_row a n) !! j = Some v /\
                  nd_get a' n j = Some (add x v).
Proof.
  intros Hsound Ha Hwf Hdim E Hm Hf Hon Hn Hlater.
  rewrite (deform_enter _ _ _ _ false) in E.
  destruct (enter_node Rth Hsound mesh boundaries ms fs h a ref uh h' k m f n
              Ha Hwf Hdim E Hm Hf Hon Hn Hlater)
    as (a' & Ha' & _ & _ & _ & Hrow & Hent).
  exists a'. auto.
Qed.

Lemma displace_bc_side p : displace p (bc_side p) = p.
Proof.
  unfold displace, bc_side. apply list_eq. intros j.
  rewrite list_lookup_imap.
  destruct (p !! j) as [v|] eqn:Hv; simpl; [|reflexivity].
  destruct j as [|[|j]]; simpl; f_equal; ring.
Qed.

(** X9: a side condition holds its nodes.  A node whose last covering pair
    has the function [bc_side] of the tutorials has, after the entry of the
    script, the coordinates it had before, in every column. *)
Theorem side_condition_holds_node mesh boundaries ms fs h a ref uh h' k m n :
  sound_solver ->
  h !! geometry_x mesh = Some a -> wf_array a -> geometry_dim mesh <= nd_cols a ->
  deform mesh boundaries ms fs h = (Ok (ref, uh), h') ->
  ms !! k = Some m -> fs !! k = Some bc_side ->
  on_marker mesh boundaries m n -> n < nd_rows a ->
  (forall k' m', k < k' -> ms !! k' = Some m' -> ~ on_marker mesh boundaries m' n) ->
  exists a', h' !! geometry_x mesh = Some a' /\ nd_row a' n = nd_row a n.
Proof.
  intros Hsound Ha Hwf Hdim E Hm Hf Hon Hn Hlater.
  destruct (deform_node _ _ _ _ _ _ _ _ _ _ _ _ _ Hsound Ha Hwf Hdim E Hm Hf Hon Hn Hlater)
    as (a' & Ha' & Hrow & _).
  exists a'. split; [exact Ha'|].
  rewrite Hrow. apply displace_bc_side.
Qed.

Lemma on_marker_dec mesh (boundaries : MeshTags) m n :
  on_marker mesh boundaries m n \/ ~ on_marker mesh boundaries m n.
Proof.
  destruct (decide (n ∈ locate_dofs_topological mesh (find boundaries m))) as [Hin|Hin].
  - left. apply locate_on_marker. exact Hin.
  - right. intros Hon. apply Hin. apply locate_on_marker. exact Hon.
Qed.

(** In the lists of the tutorials the side markers come last: a node on a
    side marker has a last covering pair, and its function is [bc_side]. *)
Lemma last_side_pair mesh (boundaries : MeshTags) m n :
  m ∈ [4; 6; 10; 11]%Z -> on_marker mesh boundaries m n ->
  exists k m',
    bc_markers !! k = Some m' /\ bc_function_list !! k = Some bc_side /\
    on_marker mesh boundaries m' n /\
    forall k' m'', k < k' -> bc_markers !! k' = Some m'' ->
                   ~ on_marker mesh boundaries m'' n.
Proof.
  intros Hm Hon.
  destruct (on_marker_dec mesh boundaries 11 n) as [H11|H11].
  { exists 7, 11%Z. repeat split; try assumption.
    intros k' m'' Hk Hk'. do 8 (destruct k' as [|k']; [lia|]). discriminate. }
  destruct (on_marker_dec mesh boundaries 10 n) as [H10|H10].
  { exists 6, 10%Z. repeat split; try assumption.
    intros k' m'' Hk Hk'. do 7 (destruct k' as [|k']; [lia|]).
    destruct k' as [|k']; [|discriminate]. injection Hk' as <-. exact H11. }
  destruct (on_marker_dec mesh boundaries 6 n) as [H6|H6].
  { exists 5, 6%Z. repeat split; try assumption.
    intros k' m'' Hk Hk'. do 6 (destruct k' as [|k']; [lia|]).
    destruct k' as [|[|k']]; [| |discriminate]; injection Hk' as <-; assumption. }
  exists 4, 4%Z.
  assert (H4 : on_marker mesh boundaries 4 n).
  { repeat (apply elem_of_cons in Hm as [->|Hm]; [try assumption; contradiction|]).
    apply not_elem_of_nil in Hm. destruct Hm. }
  repeat split; try assumption.
  intros k' m'' Hk Hk'. do 5 (destruct k' as [|k']; [lia|]).
  destruct k' as [|[|[|k']]]; [| | |discriminate]; injection Hk' as <-; assumption.
Qed.

(** X10: the corners of the tutorial.  With the markers and functions of
    lines 69 to 71, every node on a facet tagged 4, 6, 10 or 11 keeps its
    coordinates through the entry, also when it lies on a bottom or top
    facet as well: the side pairs are listed after the bottom and top pairs
    and so decide at shared nodes. *)
Theorem tutorial_sides_stay mesh boundaries h a ref uh h' m n :
  sound_solver ->
  h !! geometry_x mesh = Some a -> wf_array a -> geometry_dim mesh <= nd_cols a ->
  deform mesh boundaries bc_markers bc_function_list h = (Ok (ref, uh), h') ->
  m ∈ [4; 6; 10; 11]%Z -> on_marker mesh boundaries m n -> n < nd_rows a ->
  exists a', h' !! geometry_x mesh = Some a' /\ nd_row a' n = nd_row a n.
Proof.
  intros Hsound Ha Hwf Hdim E Hm Hon Hn.
  destruct (last_side_pair mesh boundaries m n Hm Hon)
    as (k & m' & Hk & Hf & Hon' & Hlater).
  destruct (deform_node _ _ _ _ _ _ _ _ _ _ _ _ _ Hsound Ha Hwf Hdim E Hk Hf Hon' Hn Hlater)
    as (a' & Ha' & Hrow & _).
  exists a'. split; [exact Ha'|].
  rewrite Hrow. apply displace_bc_side.
Qed.

(** X11: bottom and top nodes move vertically.  A node whose last covering
    pair has the function [bc_bottom] (or [bc_top]) keeps its first
    coordinate through the entry, and its second coordinate grows by
    [0.2 * sin(x * 2 * pi)] (or [0.1 * sin(x * 2 * pi)]), [x] being its first
    coordinate before the entry. *)
Theorem wave_condition_moves_vertically mesh boundaries ms fs h a ref uh h' k m f amp n :
  sound_solver ->
  h !! geometry_x mesh = Some a -> wf_array a ->
  geometry_dim mesh = gdim -> gdim <= nd_cols a ->
  deform mesh boundaries ms fs h = (Ok (ref, uh), h') ->
  (f = bc_bottom /\ amp = lit_0_2) \/ (f = bc_top /\ amp = lit_0_1) ->
  ms !! k = Some m -> fs !! k = Some f ->
  on_marker mesh boundaries m n -> n < nd_rows a ->
  (forall k' m', k < k' -> ms !! k' = Some m' -> ~ on_marker mesh boundaries m' n) ->
  exists a' x y,
    h' !! geometry_x mesh = Some a' /\
    nd_get a n 0 = Some x /\ nd_get a n 1 = Some y /\
    nd_get a' n 0 = Some x /\
    nd_get a' n 1 = Some (add y (mul amp (np_sin (mul (mul x lit_2) np_pi)))).
Proof.
  intros Hsound Ha Hwf Hdim Hcols E Hfun Hm Hf Hon Hn Hlater.
  destruct (deform_node _ _ _ _ _ _ _ _ _ _ _ _ _ Hsound Ha Hwf ltac:(lia) E Hm Hf
              Hon Hn Hlater) as (a' & Ha' & _ & Hent).
  destruct (Hent 0) as (x & v0 & Hx & Hv0 & Hget0); [rewrite Hdim; unfold gdim; lia|].
  destruct (Hent 1) as (y & v1 & Hy & Hv1 & Hget1); [rewrite Hdim; unfold gdim; lia|].
  assert (Hx0 : value_at (nd_row a n) 0 = x).
  { unfold value_at. rewrite nd_row_lookup by exact Hn. rewrite Hx. reflexivity. }
  exists a', x, y. split; [exact Ha'|]. split; [exact Hx|]. split; [exact Hy|].
  destruct Hfun as [[-> ->]|[-> ->]]; simpl in Hv0, Hv1;
    injection Hv0 as <-; injection Hv1 as <-; rewrite Hx0 in *;
    (split; [rewrite Hget0; f_equal; ring | exact Hget1]).
Qed.

(** X12: the functions of the third call.  At a point with at least two
    coordinates, each function of lines 106 to 117 of the second tutorial
    gives the first two coordinates of the point displaced by the function
    of the same name of lines 37 to 48: the third call prescribes, as new
    coordinates, the boundary motion that the first call prescribes as a
    displacement. *)
Theorem new_coordinates_are_displaced_points (x0 x1 : R) (rest : list R) :
  NewCoordinates.bc_bottom (x0 :: x1 :: rest)
    = take 2 (displace (x0 :: x1 :: rest) (bc_bottom (x0 :: x1 :: rest))) /\
  NewCoordinates.bc_top (x0 :: x1 :: rest)
    = take 2 (displace (x0 :: x1 :: rest) (bc_top (x0 :: x1 :: rest))) /\
  NewCoordinates.bc_side (x0 :: x1 :: rest)
    = take 2 (displace (x0 :: x1 :: rest) (bc_side (x0 :: x1 :: rest))).
Proof.
  unfold NewCoordinates.bc_bottom, NewCoordinates.bc_top, NewCoordinates.bc_side,
    bc_bottom, bc_top, bc_side, displace, value_at. simpl.
  repeat split; f_equal; try ring; f_equal; ring.
Qed.

End TutorialFunctions.

(** The square tagged as the tutorials' mesh, with the lists of lines 69 to
    71: the solved field is zero at every corner, and the entry leaves the
    coordinates as they were. *)
Lemma tutorial_square_entry :
  deform (H0 := square_backend [fixed_corners_uh] true) square_mesh tutorial_tags
    bc_markers bc_function_list square_heap
  = (Ok (1, fixed_corners_uh), <[0 := square_x]> (square_heap ++ [square_x])).
Proof. vm_compute. reflexivity. Qed.

(** The corner (2,0) lies on the bottom facet, tagged 1, and on the right
    facet, tagged 6: the pair at position 5 decides, and the corner stays. *)
Lemma side_condition_holds_node_witness :
  exists a',
    (<[0 := square_x]> (square_heap ++ [square_x])) !! geometry_x square_mesh = Some a' /\
    nd_row a' 1 = nd_row square_x 1.
Proof.
  apply (side_condition_holds_node (H0 := square_backend [fixed_corners_uh] true)
           Z_ring square_mesh tutorial_tags bc_markers bc_function_list
           square_heap square_x 1 fixed_corners_uh _ 5 6%Z 1
           (square_backend_sound _ _) eq_refl eq_refl
           ltac:(simpl; lia) tutorial_square_entry eq_refl eq_refl).
  - on_marker_yes.
  - simpl. lia.
  - intros k' m' Hk Hm'.
    do 6 (destruct k' as [|k']; [lia|]).
    destruct k' as [|[|k']]; [| |discriminate]; injection Hm' as <-; on_marker_no.
Defined.

Lemma tutorial_sides_stay_witness :
  exists a',
    (<[0 := square_x]> (square_heap ++ [square_x])) !! geometry_x square_mesh = Some a' /\
    nd_row a' 1 = nd_row square_x 1.
Proof.
  apply (tutorial_sides_stay (H0 := square_backend [fixed_corners_uh] true)
           Z_ring square_mesh tutorial_tags square_heap square_x 1
           fixed_corners_uh _ 6%Z 1
           (square_backend_sound _ _) eq_refl eq_refl
           ltac:(simpl; lia) tutorial_square_entry).
  - apply (bool_decide_unpack _). vm_compute. exact I.
  - on_marker_yes.
  - simpl. lia.
Defined.

(** The square with untagged sides: the corner (2,0) is covered by the bottom
    pair only and rises by [lit_0_2 * np_sin (2 * lit_2 * np_pi)], which the
    integer stand-ins make 8. *)
Lemma open_sides_entry :
  deform (H0 := square_backend [open_sides_uh] true) square_mesh open_sides_tags
    bc_markers bc_function_list square_heap
  = (Ok (1, open_sides_uh),
     <[0 := NdArray 5 3 [0; 0; 0;  2; 8; 0;  2; 6; 0;  0; 2; 0;  1; 4; 0]%Z]>
       (square_heap ++ [square_x])).
Proof. vm_compute. reflexivity. Qed.

Lemma wave_condition_moves_vertically_witness :
  exists a' x y,
    (<[0 := NdArray 5 3 [0; 0; 0;  2; 8; 0;  2; 6; 0;  0; 2; 0;  1; 4; 0]%Z]>
       (square_heap ++ [square_x])) !! geometry_x square_mesh = Some a' /\
    nd_get square_x 1 0 = Some x /\ nd_get square_x 1 1 = Some y /\
    nd_get a' 1 0 = Some x /\
    nd_get a' 1 1 = Some (add y (mul lit_0_2 (np_sin (mul (mul x lit_2) np_pi)))).
Proof.
  apply (wave_condition_moves_vertically (H0 := square_backend [open_sides_uh] true)
           Z_ring square_mesh open_sides_tags bc_markers bc_function_list
           square_heap square_x 1 open_sides_uh _ 0 1%Z bc_bottom lit_0_2 1
           (square_backend_sound _ _) eq_refl eq_refl eq_refl
           ltac:(unfold gdim; simpl; lia) open_sides_entry
           (or_introl (conj eq_refl eq_refl)) eq_refl eq_refl).
  - on_marker_yes.
  - simpl. lia.
  - intros k' m' Hk Hm'.
    destruct k' as [|k']; [lia|].
    do 7 (destruct k' as [|k']; [injection Hm' as <-; on_marker_no|]).
    discriminate.
Defined.

Lemma new_coordinates_are_displaced_points_witness :
  NewCoordinates.bc_bottom [1; 2; 0]%Z
    = take 2 (displace [1; 2; 0]%Z (bc_bottom [1; 2; 0]%Z)) /\
  NewCoordinates.bc_top [1; 2; 0]%Z
    = take 2 (displace [1; 2; 0]%Z (bc_top [1; 2; 0]%Z)) /\
  NewCoordinates.bc_side [1; 2; 0]%Z
    = take 2 (displace [1; 2; 0]%Z (bc_side [1; 2; 0]%Z)).
Proof.
  exact (new_coordinates_are_displaced_points Z_ring 1%Z 2%Z [0%Z]).
Defined.

(** ** Superposition of boundary data *)

Section Superposition.
Context {R : Type} `{Scalar R} `{Backend R}.
Hypothesis Rth : ring_theory zero one add mul sub opp (@eq R).
Implicit Types (h : heap R) (mesh : Mesh) (a : ndarray R)
  (f g : list R -> list R) (fs gs : list (list R -> list R)).

Add Ring scalar_ring_superposition : Rth.

Lemma last_zip_with {A B C} (op : A -> B -> C) (l1 : list A) (l2 : list B) :
  length l1 = length l2 ->
  last (zip_with op l1 l2) =
  match last l1, last l2 with
  | Some x, Some y => Some (op x y)
  | _, _ => None
  end.
Proof.
  revert l2. induction l1 as [|x l1 IH]; intros [|y l2] Hlen;
    try discriminate; [reflexivity|].
  injection Hlen as Hlen. cbn [zip_with]. rewrite !last_cons, (IH l2 Hlen).
  destruct (last l1) as [x'|] eqn:E1, (last l2) as [y'|] eqn:E2; try reflexivity.
  - apply last_None in E2. subst l2. destruct l1; discriminate.
  - apply last_None in E1. subst l1. destruct l2; discriminate.
Qed.

Lemma shaped_row mesh a f n :
  shaped mesh a f -> n < nd_rows a -> length (f (nd_row a n)) = geometry_dim mesh.
Proof.
  intros Hs Hn. unfold shaped in Hs.
  rewrite Forall_lookup in Hs. apply (Hs n).
  rewrite lookup_map_seq by exact Hn. reflexivity.
Qed.

Lemma shaped_sum mesh a f g :
  shaped mesh a f -> shaped mesh a g -> shaped mesh a (sum_function f g).
Proof.
  intros Hf Hg. unfold shaped. apply Forall_lookup_2. intros n v Hv.
  assert (Hn : n < nd_rows a).
  { apply lookup_lt_Some in Hv. rewrite length_map_seq in Hv. exact Hv. }
  rewrite lookup_map_seq in Hv by exact Hn. injection Hv as <-.
  unfold sum_function. rewrite length_zip_with.
  rewrite (shaped_row mesh a f n Hf Hn), (shaped_row mesh a g n Hg Hn). lia.
Qed.

(** The interpolated values of a sum are the sums of the interpolated
    values. *)
Lemma bc_of_sum_value mesh boundaries a m f g d :
  shaped mesh a f -> shaped mesh a g -> d < nd_rows a * geometry_dim mesh ->
  exists x y,
    bc_g (bc_of mesh boundaries a m f) !! d = Some x /\
    bc_g (bc_of mesh boundaries a m g) !! d = Some y /\
    bc_g (bc_of mesh boundaries a m (sum_function f g)) !! d = Some (add x y).
Proof.
  intros Hf Hg Hd.
  assert (Hdim : 0 < geometry_dim mesh) by (destruct (geometry_dim mesh); lia).
  pose proof (flat_index_row d _ _ Hd) as Hn.
  pose proof (Nat.mod_upper_bound d (geometry_dim mesh) ltac:(lia)) as Hc.
  rewrite <- (flat_index_split d (geometry_dim mesh)).
  generalize dependent (d / geometry_dim mesh).
  generalize dependent (d mod geometry_dim mesh).
  intros c Hc n Hn.
  rewrite !bc_of_value by (try apply shaped_sum; assumption).
  destruct (lookup_lt_is_Some_2 (f (nd_row a n)) c) as [x Hx].
  { rewrite (shaped_row mesh a f n Hf Hn). exact Hc. }
  destruct (lookup_lt_is_Some_2 (g (nd_row a n)) c) as [y Hy].
  { rewrite (shaped_row mesh a g n Hg Hn). exact Hc. }
  exists x, y. split; [exact Hx|]. split; [exact Hy|].
  unfold sum_function. rewrite lookup_zip_with, Hx, Hy. reflexivity.
Qed.

(** The conditions that the pairing loop returns, as one list. *)
Lemma loop_conditions mesh boundaries ms fs h a bcs h' :
  h !! geometry_x mesh = Some a ->
  bc_loop mesh boundaries ms fs (seq 0 (length ms)) [] h = (Ok bcs, h') ->
  bcs = zip_with (bc_of mesh boundaries a) ms fs /\
  length ms <= length fs /\
  forall k f, k < length ms -> fs !! k = Some f -> shaped mesh a f.
Proof.
  intros Ha E.
  destruct (script_conditions _ _ _ _ _ _ _ _ Ha E) as (Hlen & Hk).
  split; [|split].
  - apply list_eq. intros k. rewrite lookup_zip_with.
    destruct (decide (k < length ms)) as [Hlt|Hge].
    + destruct (Hk k Hlt) as (m & f & -> & -> & _ & ->). reflexivity.
    + rewrite (lookup_ge_None_2 bcs) by lia.
      rewrite (lookup_ge_None_2 ms) by lia. reflexivity.
  - destruct (decide (length ms <= length fs)) as [Hle|Hgt]; [exact Hle|].
    destruct (Hk (length fs) ltac:(lia)) as (m & f & _ & Hf & _).
    apply lookup_lt_Some in Hf. lia.
  - intros k f Hlt Hf.
    destruct (Hk k Hlt) as (m & f0 & _ & Hf0 & Hs & _).
    assert (Some f = Some f0) as [= <-] by (rewrite <- Hf; exact Hf0).
    exact Hs.
Qed.

Lemma covering_cons (bc : DirichletBC R) bcs d :
  covering (bc :: bcs) d =
  match imposed bc d with
  | Some v => v :: covering bcs d
  | None => covering bcs d
  end.
Proof. reflexivity. Qed.

(** The values imposed on a degree of freedom by the conditions of the sums
    are the sums of the values imposed by the conditions of the terms. *)
Lemma covering_sum mesh boundaries a ms fs gs d :
  d < nd_rows a * geometry_dim mesh ->
  length ms <= length fs -> length ms <= length gs ->
  (forall k f, k < length ms -> fs !! k = Some f -> shaped mesh a f) ->
  (forall k g, k < length ms -> gs !! k = Some g -> shaped mesh a g) ->
  covering (zip_with (bc_of mesh boundaries a) ms (zip_with sum_function fs gs)) d
  = zip_with add (covering (zip_with (bc_of mesh boundaries a) ms fs) d)
                 (covering (zip_with (bc_of mesh boundaries a) ms gs) d) /\
  length (covering (zip_with (bc_of mesh boundaries a) ms fs) d)
  = length (covering (zip_with (bc_of mesh boundaries a) ms gs) d).
Proof.
  intros Hd. revert fs gs.
  induction ms as [|m ms IH]; intros fs gs Hlf Hlg Hsf Hsg; [split; reflexivity|].
  destruct fs as [|f fs]; [simpl in Hlf; lia|].
  destruct gs as [|g gs]; [simpl in Hlg; lia|].
  simpl in Hlf, Hlg.
  destruct (IH fs gs ltac:(lia) ltac:(lia)) as [IHc IHl].
  { intros k f' Hk Hf'. apply (Hsf (S k) f'); [simpl; lia|exact Hf']. }
  { intros k g' Hk Hg'. apply (Hsg (S k) g'); [simpl; lia|exact Hg']. }
  assert (Hf : shaped mesh a f) by (apply (Hsf 0 f); [simpl; lia|reflexivity]).
  assert (Hg : shaped mesh a g) by (apply (Hsg 0 g); [simpl; lia|reflexivity]).
  destruct (bc_of_sum_value mesh boundaries a m f g d Hf Hg Hd)
    as (x & y & Hx & Hy & Hxy).
  set (U := unrolled (bc_of mesh boundaries a m f)).
  assert (Hif : imposed (bc_of mesh boundaries a m f) d
                = if decide (d ∈ U) then Some x else None).
  { unfold imposed. fold U. destruct (decide (d ∈ U)); [exact Hx|reflexivity]. }
  assert (Hig : imposed (bc_of mesh boundaries a m g) d
                = if decide (d ∈ U) then Some y else None).
  { unfold imposed.
    change (unrolled (bc_of mesh boundaries a m g)) with U.
    destruct (decide (d ∈ U)); [exact Hy|reflexivity]. }
  assert (His : imposed (bc_of mesh boundaries a m (sum_function f g)) d
                = if decide (d ∈ U) then Some (add x y) else None).
  { unfold imposed.
    change (unrolled (bc_of mesh boundaries a m (sum_function f g))) with U.
    destruct (decide (d ∈ U)); [exact Hxy|reflexivity]. }
  cbn [zip_with]. rewrite !covering_cons, Hif, Hig, His.
  destruct (decide (d ∈ U)) as [Hin|Hin].
  - cbn [zip_with length]. split; [f_equal; exact IHc|]. f_equal. exact IHl.
  - split; [exact IHc|exact IHl].
Qed.

(** X13: superposition.  When the solve of the script returns [u] under
    the conditions of the functions [fs] and [v] under the conditions of the
    functions [gs], on the same markers and the same coordinates, the pairing
    loop accepts the sums of the functions, and the sum of [u] and [v] solves
    the system that lines 95 to 100 assemble for them: the harmonic extension
    that the script computes is additive in the boundary data. *)
Theorem superposition mesh boundaries ms fs gs h a bcs_f bcs_g u v h1 h2 :
  sound_solver ->
  h !! geometry_x mesh = Some a ->
  bc_loop mesh boundaries ms fs (seq 0 (length ms)) [] h = (Ok bcs_f, h) ->
  bc_loop mesh boundaries ms gs (seq 0 (length ms)) [] h = (Ok bcs_g, h) ->
  solve_laplace mesh bcs_f h = (Ok u, h1) ->
  solve_laplace mesh bcs_g h = (Ok v, h2) ->
  exists bcs,
    bc_loop mesh boundaries ms (zip_with sum_function fs gs)
      (seq 0 (length ms)) [] h = (Ok bcs, h) /\
    length (zip_with add u v) = nd_rows a * geometry_dim mesh /\
    matvec (assemble_matrix (a_form mesh a) (nd_rows a * geometry_dim mesh) bcs)
           (zip_with add u v)
    = set_bc (apply_lifting (assemble_vector (nd_rows a * geometry_dim mesh))
                (a_form mesh a) (nd_rows a * geometry_dim mesh) bcs) bcs.
Proof.
  intros Hsound Ha Ef Eg Eu Ev.
  destruct (loop_conditions _ _ _ _ _ _ _ _ Ha Ef) as (Hbf & Hlf & Hsf).
  destruct (loop_conditions _ _ _ _ _ _ _ _ Ha Eg) as (Hbg & Hlg & Hsg).
  destruct (solve_laplace_Ok Hsound _ _ _ _ _ _ Ha Eu) as (Hlu & Hsu).
  destruct (solve_laplace_Ok Hsound _ _ _ _ _ _ Ha Ev) as (Hlv & Hsv).
  pose proof (script_conditions_length _ _ _ _ _ _ _ _ Ha Ef) as Hgf.
  pose proof (script_conditions_length _ _ _ _ _ _ _ _ Ha Eg) as Hgg.
  set (N := nd_rows a * geometry_dim mesh) in *.
  assert (Hls : length (zip_with add u v) = N).
  { rewrite length_zip_with. lia. }
  destruct (bc_loop_total mesh boundaries ms (zip_with sum_function fs gs)
              (seq 0 (length ms)) [] h a Ha) as [bcs Es].
  { intros i Hi. apply elem_of_seq in Hi.
    destruct (lookup_lt_is_Some_2 ms i ltac:(lia)) as [m Hm].
    destruct (lookup_lt_is_Some_2 fs i ltac:(lia)) as [f Hf].
    destruct (lookup_lt_is_Some_2 gs i ltac:(lia)) as [g Hg].
    exists m, (sum_function f g). split; [exact Hm|]. split.
    - rewrite lookup_zip_with, Hf, Hg. reflexivity.
    - apply shaped_sum; [apply (Hsf i f)|apply (Hsg i g)]; first [lia|assumption]. }
  exists bcs. split; [exact Es|]. split; [exact Hls|].
  destruct (loop_conditions _ _ _ _ _ _ _ _ Ha Es) as (Hbs & _ & _).
  pose proof (script_conditions_length _ _ _ _ _ _ _ _ Ha Es) as Hgs.
  fold N in Hgs.
  assert (Hcov : forall d, d < N ->
            covering bcs d = zip_with add (covering bcs_f d) (covering bcs_g d) /\
            length (covering bcs_f d) = length (covering bcs_g d)).
  { intros d Hd. subst bcs bcs_f bcs_g.
    apply covering_sum; assumption. }
  rewrite <- Hls. apply (system_of_values Rth).
  - rewrite Hls. exact Hgs.
  - intros d w Hd Hlast. rewrite Hls in Hd.
    destruct (Hcov d Hd) as [Hc Hl].
    rewrite Hc, (last_zip_with _ _ _ Hl) in Hlast.
    destruct (last (covering bcs_f d)) as [x|] eqn:Ex; [|discriminate].
    destruct (last (covering bcs_g d)) as [y|] eqn:Ey; [|discriminate].
    injection Hlast as <-.
    rewrite lookup_zip_with.
    rewrite (system_boundary Rth (a_form mesh a) bcs_f u d x ltac:(lia) Hsu Ex).
    rewrite (system_boundary Rth (a_form mesh a) bcs_g v d y ltac:(lia) Hsv Ey).
    reflexivity.
  - intros i Hi Hfree. rewrite Hls in Hi. rewrite Hls.
    destruct (Hcov i Hi) as [Hc Hl].
    rewrite (covering_nil_unconstrained bcs i Hfree) in Hc.
    assert (Hnf : ~ constrained bcs_f i).
    { intros Hcon.
      destruct (covering_last_constrained N bcs_f i Hgf Hi Hcon) as [x Hx].
      destruct (covering bcs_f i) as [|x0 l1]; [discriminate|].
      destruct (covering bcs_g i) as [|y0 l2]; [discriminate|]. discriminate. }
    assert (Hng : ~ constrained bcs_g i).
    { intros Hcon.
      destruct (covering_last_constrained N bcs_g i Hgg Hi Hcon) as [y Hy].
      destruct (covering bcs_g i) as [|y0 l2]; [discriminate|].
      destruct (covering bcs_f i) as [|x0 l1]; [discriminate|]. discriminate. }
    pose proof (system_harmonic Rth (a_form mesh a) bcs_f u i) as Hu.
    pose proof (system_harmonic Rth (a_form mesh a) bcs_g v i) as Hv.
    specialize (Hu ltac:(lia) ltac:(rewrite Hlu; exact Hgf) Hsu Hnf).
    specialize (Hv ltac:(lia) ltac:(rewrite Hlv; exact Hgg) Hsv Hng).
    rewrite Hlu in Hu. rewrite Hlv in Hv.
    rewrite (sum_map_ext _ (fun j => add (mul (a_form mesh a i j) (value_at u j))
                                         (mul (a_form mesh a i j) (value_at v j)))).
    + rewrite (sum_map_add Rth), Hu, Hv. ring.
    + intros j Hj. apply elem_of_seq in Hj.
      unfold value_at. rewrite lookup_zip_with.
      destruct (lookup_lt_is_Some_2 u j ltac:(lia)) as [uj ->].
      destruct (lookup_lt_is_Some_2 v j ltac:(lia)) as [vj ->].
      simpl. ring.
Qed.

End Superposition.

(** On the square, the lift of the corner and the shift of all sides: the
    sum of the two solved fields solves the system of the summed
    functions. *)
Lemma superposition_witness :
  exists bcs,
    bc_loop square_mesh square_tags all_sides
      (zip_with sum_function
         [lift_corner; lift_corner; lift_corner; lift_corner]
         [shift_up; shift_up; shift_up; shift_up])
      (seq 0 (length all_sides)) [] square_heap = (Ok bcs, square_heap) /\
    length (zip_with add lift_corner_uh shift_up_uh)
    = nd_rows square_x * geometry_dim square_mesh /\
    matvec (assemble_matrix (square_form square_mesh square_x)
              (nd_rows square_x * geometry_dim square_mesh) bcs)
           (zip_with add lift_corner_uh shift_up_uh)
    = set_bc (apply_lifting
                (assemble_vector (nd_rows square_x * geometry_dim square_mesh))
                (square_form square_mesh square_x)
                (nd_rows square_x * geometry_dim square_mesh) bcs) bcs.
Proof.
  set (B := square_backend [lift_corner_uh; shift_up_uh] true).
  set (fs := [lift_corner; lift_corner; lift_corner; lift_corner]).
  set (gs := [shift_up; shift_up; shift_up; shift_up]).
  destruct (bc_loop square_mesh square_tags all_sides fs
              (seq 0 (length all_sides)) [] square_heap) as [rf hf] eqn:Ef.
  destruct (bc_loop square_mesh square_tags all_sides gs
              (seq 0 (length all_sides)) [] square_heap) as [rg hg] eqn:Eg.
  assert (Hf : exists bcs_f, rf = Ok bcs_f /\ hf = square_heap /\
            solve_laplace (H0 := B) square_mesh bcs_f square_heap
            = (Ok lift_corner_uh, square_heap)).
  { vm_compute in Ef. injection Ef as <- <-. eexists. split; [reflexivity|].
    split; [reflexivity|]. vm_compute. reflexivity. }
  assert (Hg : exists bcs_g, rg = Ok bcs_g /\ hg = square_heap /\
            solve_laplace (H0 := B) square_mesh bcs_g square_heap
            = (Ok shift_up_uh, square_heap)).
  { vm_compute in Eg. injection Eg as <- <-. eexists. split; [reflexivity|].
    split; [reflexivity|]. vm_compute. reflexivity. }
  destruct Hf as (bcs_f & -> & -> & Eu). destruct Hg as (bcs_g & -> & -> & Ev).
  exact (superposition (H0 := B) Z_ring square_mesh square_tags all_sides fs gs
           square_heap square_x bcs_f bcs_g lift_corner_uh shift_up_uh _ _
           (square_backend_sound _ _) eq_refl Ef Eg Eu Ev).
Defined.

(** ** The order of the pairs *)

Section PairOrder.
Context {R : Type} `{Scalar R}.
Hypothesis Rth : ring_theory zero one add mul sub opp (@eq R).
Implicit Types (bc : DirichletBC R) (bcs : list (DirichletBC R)) (x : list R).

(** Where at most one condition imposes a value, reordering the conditions
    leaves the imposed values as they are. *)
Lemma covering_reordered bcs bcs' d :
  bcs ≡ₚ bcs' -> length (covering bcs d) <= 1 -> covering bcs' d = covering bcs d.
Proof.
  intros Hp Hone.
  assert (Hc : covering bcs' d ≡ₚ covering bcs d).
  { unfold covering. symmetry. apply omap_Permutation. exact Hp. }
  destruct (covering bcs d) as [|v [|w l]].
  - apply Permutation_nil_r. exact Hc.
  - apply Permutation_singleton_r. exact Hc.
  - simpl in Hone. lia.
Qed.

Lemma constrained_reordered bcs bcs' d :
  bcs ≡ₚ bcs' -> constrained bcs d -> constrained bcs' d.
Proof.
  intros Hp Hc. unfold constrained in *. rewrite <- Hp. exact Hc.
Qed.

Lemma system_reordered (a : nat -> nat -> R) bcs bcs' x :
  bcs ≡ₚ bcs' ->
  Forall (fun bc => length (bc_g bc) = length x) bcs ->
  (forall d, d < length x -> length (covering bcs d) <= 1) ->
  matvec (assemble_matrix a (length x) bcs) x
  = set_bc (apply_lifting (assemble_vector (length x)) a (length x) bcs) bcs ->
  matvec (assemble_matrix a (length x) bcs') x
  = set_bc (apply_lifting (assemble_vector (length x)) a (length x) bcs') bcs'.
Proof.
  intros Hp Hg Hone Hsys.
  apply (system_of_values Rth).
  - rewrite <- Hp. exact Hg.
  - intros d v Hd Hlast.
    rewrite (covering_reordered bcs bcs' d Hp (Hone d Hd)) in Hlast.
    eapply (system_boundary Rth); eassumption.
  - intros i Hi Hfree.
    eapply (system_harmonic Rth); [exact Hi|exact Hg|exact Hsys|].
    intros Hc. apply Hfree. eapply constrained_reordered; eassumption.
Qed.

(** X14: the order of the pairs matters only at shared degrees of freedom.
    When every degree of freedom receives a value from at most one of the
    conditions, the system assembled by lines 95 to 100 for the conditions
    in any other order has the same solutions. *)
Theorem order_of_disjoint_conditions (a : nat -> nat -> R) bcs bcs' x :
  bcs ≡ₚ bcs' ->
  Forall (fun bc => length (bc_g bc) = length x) bcs ->
  (forall d, d < length x -> length (covering bcs d) <= 1) ->
  matvec (assemble_matrix a (length x) bcs) x
  = set_bc (apply_lifting (assemble_vector (length x)) a (length x) bcs) bcs
  <->
  matvec (assemble_matrix a (length x) bcs') x
  = set_bc (apply_lifting (assemble_vector (length x)) a (length x) bcs') bcs'.
Proof.
  intros Hp Hg Hone. split.
  - apply system_reordered; assumption.
  - apply system_reordered.
    + symmetry. exact Hp.
    + rewrite <- Hp. exact Hg.
    + intros d Hd.
      assert (Hc : covering bcs' d ≡ₚ covering bcs d).
      { unfold covering. symmetry. apply omap_Permutation. exact Hp. }
      rewrite (Permutation_length Hc). apply Hone. exact Hd.
Qed.

End PairOrder.

(** The bottom and the top side of the square share no node: the field
    solved with the bottom pair listed first solves the system with the top
    pair listed first. *)
Lemma order_of_disjoint_conditions_witness :
  matvec (assemble_matrix (square_form square_mesh square_x) (length two_sides_uh)
            [bc_of square_mesh square_tags square_x 3%Z lift_corner;
             bc_of square_mesh square_tags square_x 1%Z shift_right])
         two_sides_uh
  = set_bc (apply_lifting (assemble_vector (length two_sides_uh))
              (square_form square_mesh square_x) (length two_sides_uh)
              [bc_of square_mesh square_tags square_x 3%Z lift_corner;
               bc_of square_mesh square_tags square_x 1%Z shift_right])
      [bc_of square_mesh square_tags square_x 3%Z lift_corner;
       bc_of square_mesh square_tags square_x 1%Z shift_right].
Proof.
  apply (proj1 (order_of_disjoint_conditions Z_ring
                  (square_form square_mesh square_x)
                  [bc_of square_mesh square_tags square_x 1%Z shift_right;
                   bc_of square_mesh square_tags square_x 3%Z lift_corner]
                  [bc_of square_mesh square_tags square_x 3%Z lift_corner;
                   bc_of square_mesh square_tags square_x 1%Z shift_right]
                  two_sides_uh
                  (perm_swap _ _ _)
                  ltac:(apply (bool_decide_unpack _); vm_compute; exact I)
                  ltac:(intros d Hd; simpl in Hd;
                        do 10 (destruct d as [|d]; [vm_compute; lia|]); lia))).
  vm_compute. reflexivity.
Defined.
